(** * Lytir.io backend: the forecasting API of [app.py]

    A shallow embedding of the request handlers of [app.py] over an explicit
    database state, and the properties of resolution, reward, crowd
    aggregation and forecast submission.

    Modelling conventions.
    - The three SQLite tables ([users], [markets], [forecasts]) have an
      [INTEGER PRIMARY KEY] each: a table is a finite map from row id to row.
    - [probability] is a [REAL] column and a Python [float]: an IEEE 754
      double.  A double is represented by the rational number that is its
      value, and every arithmetic operation on floats rounds its exact result
      to the nearest double ([to_double]).  [tokens] and [reward] are
      [INTEGER] columns, modelled as [Z].
    - The [created_at] columns are only read by [ORDER BY] clauses of the
      listing endpoints and are left out of the rows.
    - A handler is a function from the request and the database to a
      response and the database after commit. *)

From Stdlib Require Import ZArith QArith Qround Qabs String Lia Lqa.
From Stdlib Require Import PrimFloat SpecFloat FloatOps.
From stdpp Require Import base option list gmap strings sorting.

Local Open Scope string_scope.
Local Open Scope Z_scope.

(** ** Python values and arithmetic *)

(** A decoded JSON value, as [request.get_json()] hands it to the handler. *)
#[local] Unset Elimination Schemes.
Inductive json : Type :=
  | JNull
  | JBool (b : bool)
  | JNum (q : Q)
  | JStr (s : string)
  | JArr (l : list json)
  | JObj (l : list (string * json)).
#[local] Set Elimination Schemes.

(** Python truth value of a decoded JSON value, as tested by [all([...])]. *)
Definition truthy (v : json) : bool :=
  match v with
  | JNull => false
  | JBool b => b
  | JNum q => negb (Qeq_bool q 0)
  | JStr s => negb (String.eqb s "")
  | JArr l => match l with [] => false | _ => true end
  | JObj l => match l with [] => false | _ => true end
  end.

(** [v == 'yes']: only the string ['yes'] compares equal to it. *)
Definition is_yes (v : json) : bool :=
  match v with
  | JStr s => String.eqb s "yes"
  | _ => false
  end.

(** Python [int(x)] on a float: truncation towards zero. *)
Definition py_int (x : Q) : Z := Z.quot (Qnum x) (Z.pos (Qden x)).

(** Python [round(x, 0)] on a float: nearest integer, ties to even. *)
Definition py_round (x : Q) : Z :=
  let f := Qfloor x in
  match Qcompare (x - inject_Z f) (1 # 2) with
  | Lt => f
  | Gt => f + 1
  | Eq => if Z.even f then f else f + 1
  end.

(** Python [abs(x)]. *)
Definition py_abs (x : Q) : Q := Qabs x.

(** ** Double precision

    A finite double is a whole multiple [m * 2^e * 2^-1074] of the smallest
    subnormal number, with [m] of at most 53 bits.  No number of this
    program comes near the largest double, so overflow is left out. *)

Definition scale : Z := 2 ^ 1074.

(** The exponent of the unit in the last place of [t], where [t] is counted
    in units of 2^-1074: a significand has 53 bits, and the spacing is never
    below that of the subnormal numbers. *)
Definition ulp_exp (t : Q) : Z :=
  Z.max (Z.log2 (Qfloor (Qabs t)) - 52) 0.

(** The double nearest to [x], a tie going to the even significand. *)
Definition to_double (x : Q) : Q :=
  let t := (x * inject_Z scale)%Q in
  let e := ulp_exp t in
  Qred (inject_Z (py_round (t / inject_Z (2 ^ e)) * 2 ^ e) / inject_Z scale).

(** The float operations [+], [-], [*] and [/] of Python and of SQLite. *)
Definition fl_add (x y : Q) : Q := to_double (x + y).
Definition fl_sub (x y : Q) : Q := to_double (x - y).
Definition fl_mul (x y : Q) : Q := to_double (x * y).
Definition fl_div (x y : Q) : Q := to_double (x / y).

(** The value of a double of the machine, to compare the above with. *)
Definition Q_of_float (f : float) : Q :=
  match Prim2SF f with
  | S754_finite s m e =>
      (inject_Z (if s then Z.neg m else Z.pos m) * 2 ^ e)%Q
  | _ => 0%Q
  end.

(** ** Rows and tables *)

Record user : Type := User {
  username : string;
  email : string;
  password_hash : string;
  tokens : Z
}.

Record market : Type := Market {
  question : string;
  description : string;
  category : string;
  resolution_date : string;
  status : string
}.

Record forecast : Type := Forecast {
  user_id : Z;
  market_id : Z;
  probability : Q;
  tokens_spent : Z;
  reward : Z
}.

Record db : Type := Db {
  users : gmap Z user;
  markets : gmap Z market;
  forecasts : gmap Z forecast
}.

Definition set_tokens (t : Z) (u : user) : user :=
  User (username u) (email u) (password_hash u) t.

Definition set_status (s : string) (m : market) : market :=
  Market (question m) (description m) (category m) (resolution_date m) s.

Definition set_reward (r : Z) (f : forecast) : forecast :=
  Forecast (user_id f) (market_id f) (probability f) (tokens_spent f) r.

(** [AUTOINCREMENT]: the next row id is one more than the largest id of the
    table (rows are never deleted), and 1 for an empty table. *)
Definition max_id {A} (t : gmap Z A) : Z :=
  foldr Z.max 0 (map_to_list t).*1.

Definition next_id {A} (t : gmap Z A) : Z := max_id t + 1.

(** [SELECT * FROM forecasts WHERE market_id = ?] *)
Definition forecasts_of_market (mid : Z) (t : gmap Z forecast)
  : list (Z * forecast) :=
  map_to_list (filter (λ row, market_id row.2 = mid) t).

(** A scan of [forecasts] visits the rows by ascending rowid: this is the
    order in which an aggregate or a Python loop meets them. *)
Fixpoint insert_by_id {A} (row : Z * A) (l : list (Z * A)) : list (Z * A) :=
  match l with
  | [] => [row]
  | row' :: l' =>
      if row.1 <=? row'.1 then row :: l else row' :: insert_by_id row l'
  end.

Definition by_id {A} (l : list (Z * A)) : list (Z * A) :=
  foldr insert_by_id [] l.

(** [AVG] over a [REAL] column: SQLite adds the values to a double
    accumulator that starts at 0.0 and divides by the number of rows, which
    is far below 2^53 and so is converted to a double as it is.  (From
    version 3.44 on SQLite carries a correction term along with the sum; the
    term is zero whenever the partial sums are exact.) *)
Definition sqlite_avg (ps : list Q) : Q :=
  fl_div (foldl fl_add 0%Q ps) (inject_Z (Z.of_nat (length ps))).

(** The exact sum of a list of numbers. *)
Definition Qsum (l : list Q) : Q := foldr Qplus 0%Q l.

(** ** Responses *)

Inductive body : Type :=
  | Error (error : string)
  | Message (message : string)
  | ForecastSubmitted (message : string) (forecast_id : Z)
  | AccountCreated (message : string) (id : Z) (u : user)
  | MarketDetail (m : market) (crowd_prediction : Z) (forecasts_count : nat)
  | Unhandled.

(** [jsonify(body), code]; an exception that escapes the handler is
    answered 500 by Flask, with nothing committed. *)
Record response : Type := Response { status_code : Z; payload : body }.

(** ** Helper functions of [app.py] *)

(** [login_required]: the wrapped handler runs only when the session holds a
    ['user_id'], which it then reads. *)
Definition login_required {A} (f : Z → A → db → response * db)
    (session : option Z) (args : A) (d : db) : response * db :=
  match session with
  | None => (Response 401 (Error "Authentication required"), d)
  | Some uid => f uid args d
  end.

Definition calculate_crowd_prediction (mid : Z) (d : db) : Z * nat :=
  let ps := (λ row, probability row.2) <$>
              by_id (forecasts_of_market mid (forecasts d)) in
  let count := length ps in
  if (0 <? count)%nat
  then (py_round (sqlite_avg ps), count)
  else (50, 0%nat).

(** The rows of [forecasts f JOIN markets m ON f.market_id = m.id
    WHERE f.user_id = ? AND m.status = 'resolved'], in the order of a scan
    of [forecasts] that looks each market up by its key. *)
Definition resolved_forecasts_of_user (uid : Z) (d : db) : list forecast :=
  filter (λ f, user_id f = uid ∧
               status <$> markets d !! market_id f = Some "resolved")
         (by_id (map_to_list (forecasts d))).*2.

(** [total_accuracy] starts as the integer 0, to which the first float is
    added without error; [len(forecasts)] is far below 2^53. *)
Definition calculate_user_accuracy (uid : Z) (d : db) : Z :=
  match resolved_forecasts_of_user uid d with
  | [] => 0
  | fs =>
      let total_accuracy :=
        foldl (λ acc f, fl_add acc (py_abs (fl_sub 100 (probability f))))
              0%Q fs in
      py_round (fl_sub 100 (fl_div total_accuracy
                                   (inject_Z (Z.of_nat (length fs)))))
  end.

(** ** Request handlers *)

(** The fields a handler reads from the JSON body with [data.get(...)];
    [None] (resp. [JNull]) stands for an absent key or a JSON [null].
    [market_id] and [probability] are taken at the type of the column they
    are bound to: a probability is the value of the Python number, which is
    a double (a whole number up to 100 is one). *)
Record forecast_data : Type := ForecastData {
  fd_market_id : option Z;
  fd_probability : option Q
}.

Record resolve_data : Type := ResolveData {
  rd_market_id : option Z;
  rd_outcome : json
}.

Record signup_data : Type := SignupData {
  sd_username : option string;
  sd_email : option string;
  sd_password : option string
}.


Definition tokens_cost : Z := 10.

(** [POST /api/forecast] *)
Definition submit_forecast : option Z → forecast_data → db → response * db :=
  login_required (λ user_id data d,
    match fd_market_id data, fd_probability data with
    | Some mid, Some p =>
        if mid =? 0 then
          (Response 400 (Error "Market ID and probability required"), d)
        else if negb (Qle_bool 0 p && Qle_bool p 100) then
          (Response 400 (Error "Probability must be between 0 and 100"), d)
        else
          match markets d !! mid with
          | None => (Response 404 (Error "Market not found"), d)
          | Some m =>
              if negb (String.eqb (status m) "active") then
                (Response 400 (Error "Market is not active"), d)
              else
                match users d !! user_id with
                | None => (Response 500 Unhandled, d)
                | Some u =>
                    if tokens u <? tokens_cost then
                      (Response 400 (Error "Insufficient tokens"), d)
                    else
                      let forecast_id := next_id (forecasts d) in
                      (Response 201 (ForecastSubmitted
                                       "Forecast submitted successfully"
                                       forecast_id),
                       Db (alter (λ u, set_tokens (tokens u - tokens_cost) u)
                                 user_id (users d))
                          (markets d)
                          (<[forecast_id :=
                               Forecast user_id mid p tokens_cost 0]>
                             (forecasts d)))
                end
          end
    | _, _ => (Response 400 (Error "Market ID and probability required"), d)
    end).

(** The body of the loop of [resolve_market], up to the reward: the
    difference and the product are float operations. *)
Definition compute_reward (outcome : json) (p : Q) : Z :=
  let accuracy := if is_yes outcome then p else fl_sub 100 p in
  py_int (fl_mul accuracy (1 # 2)).

(** One iteration of the loop of [resolve_market]: the two [UPDATE]s. *)
Definition resolve_forecast (outcome : json)
    (tables : gmap Z forecast * gmap Z user) (row : Z * forecast)
  : gmap Z forecast * gmap Z user :=
  let reward := compute_reward outcome (probability row.2) in
  (alter (set_reward reward) row.1 tables.1,
   alter (λ u, set_tokens (tokens u + reward) u) (user_id row.2) tables.2).

(** [POST /api/admin/resolve-market] *)
Definition resolve_market (data : resolve_data) (d : db) : response * db :=
  match rd_market_id data with
  | Some mid =>
      if negb (mid =? 0) && truthy (rd_outcome data) then
        let ms := alter (set_status "resolved") mid (markets d) in
        let rows := forecasts_of_market mid (forecasts d) in
        let tables :=
          foldl (resolve_forecast (rd_outcome data))
                (forecasts d, users d) rows in
        (Response 200 (Message "Market resolved successfully"),
         Db tables.2 ms tables.1)
      else (Response 400 (Error "Market ID and outcome required"), d)
  | None => (Response 400 (Error "Market ID and outcome required"), d)
  end.

(** [POST /api/signup]; [hash] is the salted digest that
    [generate_password_hash] returns for the password. *)
Definition signup (hash : string) (data : signup_data) (d : db)
  : response * db :=
  match sd_username data, sd_email data, sd_password data with
  | Some name, Some mail, Some password =>
      if String.eqb name "" || String.eqb mail "" || String.eqb password ""
      then (Response 400 (Error "All fields required"), d)
      else if decide (map_Exists
                        (λ _ u, email u = mail ∨ username u = name) (users d))
      then (Response 400 (Error "User already exists"), d)
      else
        let user_id := next_id (users d) in
        let u := User name mail hash 1000 in
        (Response 201 (AccountCreated "Account created successfully" user_id u),
         Db (<[user_id := u]> (users d)) (markets d) (forecasts d))
  | _, _, _ => (Response 400 (Error "All fields required"), d)
  end.

(** [init_db]: the tables exist already in the model; the sample markets are
    inserted when the [markets] table is empty. *)
Definition sample_markets : list market :=
  [ Market "Will Ireland qualify for FIFA 2026?"
      "This market resolves YES if Ireland's national football team qualifies for the 2026 FIFA World Cup by the end of qualifying rounds."
      "Sports" "2026-06-30" "active";
    Market "Will Sinn Féin win next election?"
      "This market resolves YES if Sinn Féin becomes the largest party in the next Irish general election."
      "Politics" "2025-12-31" "active";
    Market "Will Irish tech startup IPO in 2025?"
      "This market resolves YES if any Irish-founded tech startup goes public in 2025."
      "Tech" "2025-12-31" "active" ].

Definition insert_market (t : gmap Z market) (m : market) : gmap Z market :=
  <[next_id t := m]> t.

Definition init_db (d : db) : db :=
  if decide (size (markets d) = 0%nat)
  then Db (users d) (foldl insert_market (markets d) sample_markets)
          (forecasts d)
  else d.

(** The database right after the tables are created. *)
Definition empty_db : db := Db ∅ ∅ ∅.

(** ** Notions used in the statements *)

(** [UPDATE users SET tokens = tokens + ?] on one row. *)
Definition credit (r : Z) (u : user) : user := set_tokens (tokens u + r) u.

(** The tokens that resolving market [mid] with [outcome] pays to [uid]:
    the rewards of the forecasts of [uid] against that market. *)
Definition rewards_of_user (outcome : json) (uid : Z)
    (rows : list (Z * forecast)) : Z :=
  foldr Z.add 0
    ((λ row, compute_reward outcome (probability row.2)) <$>
       filter (λ row, user_id row.2 = uid) rows).

(** What [resolve_market] writes on a forecast row. *)
Definition resolved_forecast (outcome : json) (mid : Z) (f : forecast) : forecast :=
  if decide (market_id f = mid)
  then set_reward (compute_reward outcome (probability f)) f
  else f.

(** The arithmetic mean of a non-empty list of numbers. *)
Definition mean (xs : list Q) : Q :=
  (Qsum xs / inject_Z (Z.of_nat (length xs)))%Q.

(** The numbers that a double can hold: a significand of 53 bits times a
    power of two that is at least 2^-1074. *)
Definition is_double (q : Q) : Prop :=
  ∃ m e : Z, 0 ≤ e ∧ Z.abs m < 2 ^ 53 ∧
             (q == inject_Z (m * 2 ^ e) / inject_Z scale)%Q.

(** [r] is a double, and no double is nearer to [x]. *)
Definition nearest_double (x r : Q) : Prop :=
  is_double r ∧ ∀ g, is_double g → (Qabs (r - x) <= Qabs (g - x))%Q.

(** The [REAL] column [probability] holds doubles. *)
Definition real_probabilities (d : db) : Prop :=
  ∀ k f, forecasts d !! k = Some f → is_double (probability f).

(** A whole number. *)
Definition whole (q : Q) : Prop := (q == inject_Z (Qfloor q))%Q.

(** [s] is a sum of the list in double precision: the numbers are added
    one at a time, from the left, each partial sum being replaced by a
    nearest double. *)
Inductive double_sum : list Q → Q → Prop :=
  | double_sum_nil : double_sum [] 0%Q
  | double_sum_snoc l s x r :
      double_sum l s → nearest_double (s + x) r → double_sum (l ++ [x]) r.

(** The joined rows, with their ids. *)
Definition resolved_rows_of_user (uid : Z) (d : db) : list (Z * forecast) :=
  filter (λ row, user_id row.2 = uid ∧
                 status <$> markets d !! market_id row.2 = Some "resolved")
         (by_id (map_to_list (forecasts d))).

(** ** Reachable databases *)

(** One state-changing request, or a restart of the server. *)
Inductive step : db → db → Prop :=
  | step_init_db d : step d (init_db d)
  | step_signup hash data d : step d (signup hash data d).2
  | step_submit_forecast session data d :
      step d (submit_forecast session data d).2
  | step_resolve_market data d : step d (resolve_market data d).2.

(** The databases the service can be in: it starts without users and
    forecasts, with whatever markets were set up. *)
Inductive reachable : db → Prop :=
  | reachable_start d : users d = ∅ → forecasts d = ∅ → reachable d
  | reachable_step d d' : reachable d → step d d' → reachable d'.

(** What holds of every reachable database: probabilities are in range, a
    forecast names a market of the table and has no reward before that
    market is resolved, and no balance is negative. *)
Record consistent (d : db) : Prop := Consistent {
  forecast_range : ∀ k f, forecasts d !! k = Some f →
    (0 <= probability f)%Q ∧ (probability f <= 100)%Q;
  forecast_market : ∀ k f, forecasts d !! k = Some f →
    ∃ m, markets d !! market_id f = Some m ∧
         (status m ≠ "resolved" → reward f = 0);
  user_tokens : ∀ uid u, users d !! uid = Some u → 0 ≤ tokens u
}.

(** ** Sample databases *)

(** The seeded database after one signup. *)
Definition db_signed_up : db :=
  (signup "pbkdf2" (SignupData (Some "aoife") (Some "aoife@example.org")
                               (Some "secret"))
          (init_db empty_db)).2.

(** ... and after that user has forecast 80 on market 1. *)
Definition db_one_forecast : db :=
  (submit_forecast (Some 1) (ForecastData (Some 1) (Some 80%Q))
                   db_signed_up).2.

(** ... and after a second forecast of that user on market 1, of 70. *)
Definition db_two_forecasts : db :=
  (submit_forecast (Some 1) (ForecastData (Some 1) (Some 70%Q))
                   db_one_forecast).2.

(** The sample database after market 1 is resolved with 'yes'. *)
Definition db_resolved : db :=
  (resolve_market (ResolveData (Some 1) (JStr "yes")) db_one_forecast).2.

(** The double that Python prints as 14.000000000000002: 14 + 2^-49. *)
Definition probability_fractional : Q := 7881299347898369 # 562949953421312.

(** The signed-up user has forecast 14.000000000000002 on market 1 ... *)
Definition db_fractional : db :=
  (submit_forecast (Some 1)
     (ForecastData (Some 1) (Some probability_fractional)) db_signed_up).2.

(** ... and then 15 on the same market ... *)
Definition db_fractional_pair : db :=
  (submit_forecast (Some 1) (ForecastData (Some 1) (Some 15%Q))
                   db_fractional).2.

(** ... which is then resolved with 'yes'. *)
Definition db_fractional_resolved : db :=
  (resolve_market (ResolveData (Some 1) (JStr "yes")) db_fractional_pair).2.

(** The signed-up user has spent all 1000 tokens on a hundred forecasts. *)
Definition db_poor_user : db :=
  Nat.iter 100
    (λ d, (submit_forecast (Some 1) (ForecastData (Some 1) (Some 50%Q)) d).2)
    db_signed_up.

(** ** Integrity conditions *)

(** The [UNIQUE] columns of [users]: no two rows share an email or a
    username, and neither is empty. *)
Definition unique_users (t : gmap Z user) : Prop :=
  ∀ k1 k2 u1 u2, t !! k1 = Some u1 → t !! k2 = Some u2 →
    email u1 = email u2 ∨ username u1 = username u2 → k1 = k2.

(** The foreign keys and defaults of a [forecasts] row. *)
Record forecast_ok (d : db) (k : Z) (f : forecast) : Prop := ForecastOk {
  forecast_user : is_Some (users d !! user_id f);
  forecast_market_known : is_Some (markets d !! market_id f);
  forecast_market_nonzero : market_id f ≠ 0;
  forecast_cost : tokens_spent f = tokens_cost;
  forecast_reward_range : 0 ≤ reward f ≤ 50;
  forecast_id_positive : 1 ≤ k
}.

(** ** Sessions and read-only handlers *)

(** The answer of a handler that does not write: [jsonify(value), code], an
    error object with its code, or an exception that escapes (500). *)
Inductive reply (A : Type) : Type :=
  | Json (code : Z) (value : A)
  | Refused (code : Z) (error : string)
  | Crashed.
Arguments Json {A} code value.
Arguments Refused {A} code error.
Arguments Crashed {A}.

Record login_data : Type := LoginData {
  ld_email : option string;
  ld_password : option string
}.

(** The columns [id, username, email, tokens] that answers show of a user. *)
Record user_info : Type := UserInfo {
  ui_id : Z;
  ui_username : string;
  ui_email : string;
  ui_tokens : Z
}.

(** [SELECT * FROM users WHERE email = ?] followed by [fetchone()]. *)
Definition select_user_by_email (mail : string) (t : gmap Z user)
  : option (Z * user) :=
  snd <$> list_find (λ row, email row.2 = mail) (map_to_list t).

(** [POST /api/login]; [check_password_hash] is werkzeug's, taken as a
    parameter.  The second component is the session after the request. *)
Definition login (check_password_hash : string → string → bool)
    (data : login_data) (d : db) (session : option Z)
  : reply user_info * option Z :=
  match ld_email data, ld_password data with
  | Some mail, Some password =>
      if String.eqb mail "" || String.eqb password "" then
        (Refused 400 "Email and password required", session)
      else
        match select_user_by_email mail (users d) with
        | Some (id, u) =>
            if check_password_hash (password_hash u) password then
              (Json 200 (UserInfo id (username u) (email u) (tokens u)),
               Some id)
            else (Refused 401 "Invalid credentials", session)
        | None => (Refused 401 "Invalid credentials", session)
        end
  | _, _ => (Refused 400 "Email and password required", session)
  end.

(** The session that [signup] leaves: it is set on success only. *)
Definition signup_session (hash : string) (data : signup_data) (d : db)
    (session : option Z) : option Z :=
  match payload (signup hash data d).1 with
  | AccountCreated _ user_id _ => Some user_id
  | _ => session
  end.

Record user_profile : Type := UserProfile {
  up_info : user_info;
  up_forecasts_count : nat;
  up_accuracy : Z;
  up_rank : nat
}.

(** [SELECT COUNT( * ) FROM forecasts WHERE user_id = ?] *)
Definition count_forecasts_of_user (uid : Z) (d : db) : nat :=
  length (filter (λ row, user_id row.2 = uid) (map_to_list (forecasts d))).

(** [SELECT COUNT( * ) + 1 FROM users WHERE tokens > ?], the argument being
    the tokens of the user that is ranked. *)
Definition rank_of_tokens (t : Z) (d : db) : nat :=
  S (length (filter (λ row, t < tokens row.2) (map_to_list (users d)))).

(** [GET /api/user], behind [login_required]; [dict(c.fetchone())] raises
    when the session names no row. *)
Definition get_user (session : option Z) (d : db) : reply user_profile :=
  match session with
  | None => Refused 401 "Authentication required"
  | Some user_id =>
      match users d !! user_id with
      | None => Crashed
      | Some u =>
          Json 200
            (UserProfile (UserInfo user_id (username u) (email u) (tokens u))
               (count_forecasts_of_user user_id d)
               (calculate_user_accuracy user_id d)
               (rank_of_tokens (tokens u) d))
      end
  end.

Record leaderboard_entry : Type := LeaderboardEntry {
  le_id : Z;
  le_username : string;
  le_tokens : Z;
  le_forecasts_count : nat;
  le_accuracy : Z
}.

(** [ORDER BY tokens DESC]; SQLite leaves the order of rows with equal
    tokens open, the model takes the one of a merge sort. *)
Definition more_tokens (a b : Z * user) : Prop := tokens b.2 ≤ tokens a.2.

#[global] Instance more_tokens_dec a b : Decision (more_tokens a b) :=
  Z_le_dec (tokens b.2) (tokens a.2).

(** [GET /api/leaderboard]: the body of the answer, whose code is 200. *)
Definition get_leaderboard (d : db) : list leaderboard_entry :=
  (λ row, LeaderboardEntry row.1 (username row.2) (tokens row.2)
            (count_forecasts_of_user row.1 d)
            (calculate_user_accuracy row.1 d))
    <$> take 50 (merge_sort more_tokens (map_to_list (users d))).

(** ** Listings

    The two listings below are ordered by [created_at], which the rows of
    the model do not carry: a listing is given as the finite map from the
    id of a listed row to the entry shown for it. *)

Record market_entry : Type := MarketEntry {
  me_market : market;
  me_crowd_prediction : Z;
  me_forecasts_count : nat
}.

(** [GET /api/markets]: [SELECT * FROM markets WHERE status = "active"],
    each row with its crowd prediction and forecast count. *)
Definition get_markets (d : db) : gmap Z market_entry :=
  map_imap (λ id m,
    if decide (status m = "active") then
      let '(crowd_pred, forecast_count) := calculate_crowd_prediction id d in
      Some (MarketEntry m crowd_pred forecast_count)
    else None) (markets d).

Record forecast_entry : Type := ForecastEntry {
  fe_forecast : forecast;
  fe_market_question : string;
  fe_status : string;
  fe_category : string;
  fe_crowd_prediction : Z
}.

(** [GET /api/user/forecasts], behind [login_required]:
    [forecasts f JOIN markets m ON f.market_id = m.id WHERE f.user_id = ?],
    each row with the crowd prediction of its market. *)
Definition get_user_forecasts (session : option Z) (d : db)
  : reply (gmap Z forecast_entry) :=
  match session with
  | None => Refused 401 "Authentication required"
  | Some uid =>
      Json 200
        (map_imap (λ _ f,
           if decide (user_id f = uid) then
             (λ m, ForecastEntry f (question m) (status m) (category m)
                     (calculate_crowd_prediction (market_id f) d).1)
               <$> markets d !! market_id f
           else None) (forecasts d))
  end.

(** * Properties *)

(** ** Arithmetic of [int] and [round] *)

Lemma py_int_floor (x : Q) : (0 <= x)%Q → py_int x = Qfloor x.
Proof.
  destruct x as [n d]. unfold Qle, py_int, Qfloor. simpl. intros H.
  apply Z.quot_div_nonneg; lia.
Qed.

Lemma py_round_comp (x y : Q) : (x == y)%Q → py_round x = py_round y.
Proof.
  intros E. unfold py_round. rewrite (Qfloor_comp _ _ E).
  assert (Hc : ((x - inject_Z (Qfloor y)) ?= 1 # 2)%Q = ((y - inject_Z (Qfloor y)) ?= 1 # 2)%Q).
  { apply Qcompare_comp; [lra | reflexivity]. }
  by rewrite Hc.
Qed.

Lemma Qabs_lower (a : Q) : (a <= Qabs a)%Q ∧ (- a <= Qabs a)%Q.
Proof.
  split; [apply Qle_Qabs|]. rewrite <- Qabs_opp. apply Qle_Qabs.
Qed.

Lemma Qabs_upper (a b : Q) : (- b <= a)%Q → (a <= b)%Q → (Qabs a <= b)%Q.
Proof. intros. by apply Qabs_Qle_condition. Qed.

Lemma py_round_nearest (x : Q) (z : Z) :
  (Qabs (x - inject_Z (py_round x)) <= Qabs (x - inject_Z z))%Q.
Proof.
  pose proof (Qfloor_le x) as Hlo. pose proof (Qlt_floor x) as Hhi.
  rewrite inject_Z_plus in Hhi. change (inject_Z 1) with 1%Q in Hhi.
  destruct (Qabs_lower (x - inject_Z z)) as [Ha Hb].
  assert (Hz : (inject_Z z <= inject_Z (Qfloor x))%Q ∨
               (inject_Z (Qfloor x) + 1 <= inject_Z z)%Q).
  { destruct (Z_le_gt_dec z (Qfloor x)) as [Hle|Hgt].
    - left. by rewrite <- Zle_Qle.
    - right. change 1%Q with (inject_Z 1).
      rewrite <- inject_Z_plus, <- Zle_Qle. lia. }
  unfold py_round.
  destruct (Qcompare_spec (x - inject_Z (Qfloor x)) (1 # 2)) as [He|Hl|Hg].
  - destruct (Z.even (Qfloor x)); [|rewrite inject_Z_plus; change (inject_Z 1) with 1%Q];
      apply Qabs_upper; destruct Hz; lra.
  - apply Qabs_upper; destruct Hz; lra.
  - rewrite inject_Z_plus. change (inject_Z 1) with 1%Q. apply Qabs_upper; destruct Hz; lra.
Qed.

Lemma py_round_half (x : Q) : (Qabs (x - inject_Z (py_round x)) <= 1 # 2)%Q.
Proof.
  pose proof (Qfloor_le x) as Hlo. pose proof (Qlt_floor x) as Hhi.
  rewrite inject_Z_plus in Hhi. change (inject_Z 1) with 1%Q in Hhi.
  unfold py_round.
  destruct (Qcompare_spec (x - inject_Z (Qfloor x)) (1 # 2)) as [He|Hl|Hg].
  - destruct (Z.even (Qfloor x)); [|rewrite inject_Z_plus; change (inject_Z 1) with 1%Q];
      apply Qabs_upper; lra.
  - apply Qabs_upper; lra.
  - rewrite inject_Z_plus. change (inject_Z 1) with 1%Q. apply Qabs_upper; lra.
Qed.

Lemma py_round_between (a b : Z) (x : Q) :
  (inject_Z a <= x)%Q → (x <= inject_Z b)%Q → a ≤ py_round x ≤ b.
Proof.
  intros Ha Hb.
  pose proof (Qfloor_le x) as Hlo. pose proof (Qlt_floor x) as Hhi.
  rewrite inject_Z_plus in Hhi. change (inject_Z 1) with 1%Q in Hhi.
  pose proof (Qfloor_resp_le _ _ Ha) as Hfa. rewrite Qfloor_Z in Hfa.
  pose proof (Qfloor_resp_le _ _ Hb) as Hfb. rewrite Qfloor_Z in Hfb.
  unfold py_round.
  destruct (Qcompare_spec (x - inject_Z (Qfloor x)) (1 # 2)) as [He|Hl|Hg];
    [destruct (Z.even (Qfloor x))|..]; try lia.
  - destruct (decide (Qfloor x = b)) as [Hfx|]; [|lia].
    rewrite Hfx in He. lra.
  - destruct (decide (Qfloor x = b)) as [Hfx|]; [|lia].
    rewrite Hfx in Hg. lra.
Qed.

(** ** Rounding to a double *)

Lemma inject_Z_pow2_pos (e : Z) : 0 ≤ e → (0 < inject_Z (2 ^ e))%Q.
Proof.
  intros He. change 0%Q with (inject_Z 0). rewrite <- Zlt_Qlt.
  apply Z.pow_pos_nonneg; lia.
Qed.

Lemma scale_pos : (0 < inject_Z scale)%Q.
Proof. by apply inject_Z_pow2_pos. Qed.

Lemma ulp_exp_spec (t : Q) :
  0 ≤ ulp_exp t ∧
  (Qabs t < inject_Z (2 ^ (ulp_exp t + 53)))%Q ∧
  (0 < ulp_exp t → (inject_Z (2 ^ (ulp_exp t + 52)) <= Qabs t)%Q) ∧
  (∀ j, 0 ≤ j → (Qabs t < inject_Z (2 ^ (j + 53)))%Q → ulp_exp t ≤ j).
Proof.
  unfold ulp_exp. set (a := Qfloor (Qabs t)).
  assert (Ha0 : 0 ≤ a).
  { change 0 with (Qfloor 0). apply Qfloor_resp_le, Qabs_nonneg. }
  pose proof (Qfloor_le (Qabs t)) as Hlo. fold a in Hlo.
  pose proof (Qlt_floor (Qabs t)) as Hhi. fold a in Hhi.
  split; [lia|].
  destruct (decide (a = 0)) as [Hz|Hnz].
  - rewrite Hz in *. change (Z.log2 0) with 0.
    replace (Z.max (0 - 52) 0) with 0 by lia.
    split; [|split; [lia|intros; lia]].
    eapply Qlt_le_trans; [exact Hhi|]. by rewrite <- Zle_Qle.
  - destruct (Z.log2_spec a) as [Hl Hu]; [lia|].
    set (L := Z.log2 a) in *.
    assert (HL : 0 ≤ L) by apply Z.log2_nonneg.
    split; [|split].
    + eapply Qlt_le_trans; [exact Hhi|]. rewrite <- Zle_Qle.
      assert (2 ^ Z.succ L ≤ 2 ^ (Z.max (L - 52) 0 + 53))
        by (apply Z.pow_le_mono_r; lia).
      lia.
    + intros Hpos. eapply Qle_trans; [|exact Hlo]. rewrite <- Zle_Qle.
      replace (Z.max (L - 52) 0 + 52) with L by lia. lia.
    + intros j Hj Hlt.
      assert (Haj : a < 2 ^ (j + 53)).
      { rewrite Zlt_Qlt. eapply Qle_lt_trans; [exact Hlo|exact Hlt]. }
      apply Z.log2_lt_pow2 in Haj; [|lia]. fold L in Haj. lia.
Qed.

Lemma round_grid_nearest (t P : Q) (z : Z) :
  (0 < P)%Q →
  (Qabs (t - inject_Z (py_round (t / P)) * P) <=
   Qabs (t - inject_Z z * P))%Q.
Proof.
  intros HP. pose proof (py_round_nearest (t / P) z) as H.
  assert (E : ∀ y, (t - y * P == (t / P - y) * P)%Q) by (intros; field; lra).
  rewrite !E, !Qabs_Qmult, (Qabs_pos P) by lra.
  apply Qmult_le_compat_r; [done|lra].
Qed.

Lemma to_double_scaled_nearest (t : Q) (m k : Z) :
  0 ≤ k → Z.abs m ≤ 2 ^ 53 →
  (Qabs (inject_Z (py_round (t / inject_Z (2 ^ ulp_exp t)) * 2 ^ ulp_exp t) - t)
   <= Qabs (inject_Z (m * 2 ^ k) - t))%Q.
Proof.
  intros Hk Hm.
  destruct (ulp_exp_spec t) as (He0 & Hlt & Hge & _).
  set (e := ulp_exp t) in *.
  pose proof (inject_Z_pow2_pos e He0) as HP.
  rewrite !(Qabs_Qminus _ t), inject_Z_mult.
  destruct (Z_le_gt_dec e k) as [Hek|Hek].
  - replace (2 ^ k) with (2 ^ (k - e) * 2 ^ e)
      by (rewrite <- Z.pow_add_r by lia; f_equal; lia).
    rewrite Z.mul_assoc, (inject_Z_mult (m * _)).
    by apply round_grid_nearest.
  - assert (Hpos : 0 < e) by lia. specialize (Hge Hpos).
    assert (HB : 2 ^ (e + 52) = 2 ^ 52 * 2 ^ e)
      by (rewrite <- Z.pow_add_r by lia; f_equal; lia).
    assert (Hmk : Z.abs (m * 2 ^ k) ≤ 2 ^ (e + 52)).
    { rewrite Z.abs_mul, (Z.abs_eq (2 ^ k)) by (apply Z.pow_nonneg; lia).
      replace (e + 52) with (53 + (e - 1)) by lia.
      rewrite Z.pow_add_r by lia.
      apply Z.mul_le_mono_nonneg; [lia|done|apply Z.pow_nonneg; lia|].
      apply Z.pow_le_mono_r; lia. }
    destruct (Qabs_lower (t - inject_Z (m * 2 ^ k))) as [Hl1 Hl2].
    destruct (Qlt_le_dec t 0) as [Hneg|Hnn].
    + rewrite Qabs_neg in Hge by lra.
      eapply Qle_trans; [apply (round_grid_nearest t _ (- 2 ^ 52) HP)|].
      rewrite <- inject_Z_mult.
      replace (- 2 ^ 52 * 2 ^ e) with (- 2 ^ (e + 52)) by lia.
      rewrite inject_Z_opp.
      assert (Hq : (- inject_Z (2 ^ (e + 52)) <= inject_Z (m * 2 ^ k))%Q).
      { rewrite <- inject_Z_opp, <- Zle_Qle. lia. }
      apply Qabs_upper; lra.
    + rewrite Qabs_pos in Hge by lra.
      eapply Qle_trans; [apply (round_grid_nearest t _ (2 ^ 52) HP)|].
      rewrite <- inject_Z_mult, <- HB.
      assert (Hq : (inject_Z (m * 2 ^ k) <= inject_Z (2 ^ (e + 52)))%Q).
      { rewrite <- Zle_Qle. lia. }
      apply Qabs_upper; lra.
Qed.

Lemma is_double_intro (m e : Z) (q : Q) :
  0 ≤ e → Z.abs m ≤ 2 ^ 53 →
  (q == inject_Z (m * 2 ^ e) / inject_Z scale)%Q → is_double q.
Proof.
  intros He Hm Hq.
  destruct (decide (Z.abs m = 2 ^ 53)) as [Heq|Hne].
  - exists (m / 2), (e + 1). split; [lia|].
    assert (Hm2 : m = 2 * (m / 2)).
    { apply Z.div_exact; [lia|].
      assert (Hc : m = 2 ^ 53 ∨ m = - 2 ^ 53) by lia.
      by destruct Hc as [-> | ->]. }
    split.
    + assert (Hc : m = 2 ^ 53 ∨ m = - 2 ^ 53) by lia.
      by destruct Hc as [-> | ->].
    + rewrite Hq. rewrite Z.pow_add_r by lia.
      replace (m / 2 * (2 ^ e * 2 ^ 1)) with (m * 2 ^ e); [reflexivity|].
      rewrite Hm2 at 1. change (2 ^ 1) with 2. lia.
  - exists m, e. split; [done|]. split; [lia|done].
Qed.

Lemma to_double_eq (x : Q) :
  (to_double x ==
   inject_Z (py_round (x * inject_Z scale /
                       inject_Z (2 ^ ulp_exp (x * inject_Z scale))) *
             2 ^ ulp_exp (x * inject_Z scale)) / inject_Z scale)%Q.
Proof. unfold to_double. apply Qred_correct. Qed.

(** The result of rounding is a double. *)
Lemma to_double_is_double (x : Q) : is_double (to_double x).
Proof.
  set (t := (x * inject_Z scale)%Q).
  destruct (ulp_exp_spec t) as (He0 & Hlt & _ & _).
  pose proof (inject_Z_pow2_pos _ He0) as HP.
  apply (is_double_intro (py_round (t / inject_Z (2 ^ ulp_exp t))) (ulp_exp t));
    [done| |apply to_double_eq].
  rewrite Z.pow_add_r, Z.mul_comm, inject_Z_mult in Hlt by lia.
  set (P := inject_Z (2 ^ ulp_exp t)) in *.
  destruct (Qabs_lower t) as [H1 H2].
  assert (Hb : - 2 ^ 53 ≤ py_round (t / P) ≤ 2 ^ 53).
  { apply py_round_between.
    - apply Qle_shift_div_l; [done|]. rewrite inject_Z_opp. lra.
    - apply Qle_shift_div_r; [done|]. lra. }
  lia.
Qed.

(** No double is nearer to [x] than [to_double x]. *)
Lemma to_double_nearest (x g : Q) :
  is_double g → (Qabs (to_double x - x) <= Qabs (g - x))%Q.
Proof.
  intros (m & k & Hk & Hm & Hg).
  rewrite to_double_eq, Hg.
  pose proof scale_pos as HS. set (S := inject_Z scale) in *.
  set (t := (x * S)%Q).
  assert (E : ∀ y, (y / S - x == (y - t) * / S)%Q)
    by (intros; subst t; field; lra).
  assert (Hinv : (0 < / S)%Q) by (by apply Qinv_lt_0_compat).
  rewrite !E, !Qabs_Qmult, (Qabs_pos (/ S)) by lra.
  apply Qmult_le_compat_r; [|lra].
  apply to_double_scaled_nearest; [done|lia].
Qed.

Lemma to_double_nearest_double (x : Q) : nearest_double x (to_double x).
Proof.
  split; [apply to_double_is_double|]. intros g. apply to_double_nearest.
Qed.

(** A double is rounded to itself. *)
Lemma to_double_fix (q : Q) : is_double q → (to_double q == q)%Q.
Proof.
  intros Hq. pose proof (to_double_nearest q q Hq) as H.
  assert (Hz : (Qabs (q - q) == 0)%Q).
  { rewrite Qabs_pos; lra. }
  rewrite Hz in H.
  destruct (Qabs_lower (to_double q - q)). lra.
Qed.

Lemma to_double_comp (x y : Q) : (x == y)%Q → to_double x = to_double y.
Proof.
  intros E. unfold to_double.
  assert (Et : (x * inject_Z scale == y * inject_Z scale)%Q) by (by rewrite E).
  assert (Ee : ulp_exp (x * inject_Z scale) = ulp_exp (y * inject_Z scale)).
  { unfold ulp_exp. do 3 f_equal. apply Qfloor_comp. by rewrite Et. }
  rewrite Ee.
  rewrite (py_round_comp (x * inject_Z scale / _) (y * inject_Z scale / inject_Z
    (2 ^ ulp_exp (y * inject_Z scale)))); [done|].
  by rewrite Et.
Qed.

Lemma is_double_comp (x y : Q) : (x == y)%Q → is_double x → is_double y.
Proof. intros E (m & e & ? & ? & Hx). exists m, e. by rewrite <- E. Qed.

Lemma is_double_Z (z : Z) : Z.abs z ≤ 2 ^ 53 → is_double (inject_Z z).
Proof.
  intros Hz. apply (is_double_intro z 1074); [lia|done|].
  rewrite inject_Z_mult. pose proof scale_pos. fold scale. field. lra.
Qed.

(** Rounding does not cross a double. *)
Lemma to_double_ge (g x : Q) : is_double g → (g <= x)%Q → (g <= to_double x)%Q.
Proof.
  intros Hg Hle. pose proof (to_double_nearest x g Hg) as H.
  rewrite (Qabs_neg (g - x)) in H by lra.
  destruct (Qabs_lower (to_double x - x)). lra.
Qed.

Lemma to_double_le (g x : Q) : is_double g → (x <= g)%Q → (to_double x <= g)%Q.
Proof.
  intros Hg Hle. pose proof (to_double_nearest x g Hg) as H.
  rewrite (Qabs_pos (g - x)) in H by lra.
  destruct (Qabs_lower (to_double x - x)). lra.
Qed.

Lemma to_double_mono (x y : Q) : (x <= y)%Q → (to_double x <= to_double y)%Q.
Proof.
  intros Hxy.
  destruct (Qlt_le_dec (to_double y) (to_double x)) as [Hlt|]; [|done].
  exfalso.
  pose proof (to_double_nearest x _ (to_double_is_double y)) as Hx.
  pose proof (to_double_nearest y _ (to_double_is_double x)) as Hy.
  set (f := to_double y) in *. set (g := to_double x) in *.
  destruct (Qabs_lower (g - x)) as [Hx1 Hx2].
  destruct (Qabs_lower (f - y)) as [Hy1 Hy2].
  assert (Hfx : (f < x)%Q).
  { destruct (Qlt_le_dec f x) as [|Hge]; [done|].
    rewrite (Qabs_pos (f - x)) in Hx by lra. lra. }
  assert (Hyg : (y < g)%Q).
  { destruct (Qlt_le_dec y g) as [|Hge]; [done|].
    rewrite (Qabs_neg (g - y)) in Hy by lra. lra. }
  rewrite (Qabs_neg (f - x)) in Hx by lra.
  rewrite (Qabs_pos (g - y)) in Hy by lra.
  assert (Exy : (x == y)%Q) by lra.
  apply to_double_comp in Exy. subst f g. rewrite Exy in Hlt. lra.
Qed.

(** The rounding error of a number below 2^b is at most 2^(b-54). *)
Lemma to_double_error (x : Q) (b : Z) :
  0 ≤ b → (Qabs x < inject_Z (2 ^ b))%Q →
  (Qabs (to_double x - x) <= inject_Z (2 ^ b) / inject_Z (2 ^ 54))%Q.
Proof.
  intros Hb Hx. rewrite to_double_eq.
  pose proof scale_pos as HS.
  set (t := (x * inject_Z scale)%Q).
  destruct (ulp_exp_spec t) as (He0 & _ & _ & Hj).
  assert (He : ulp_exp t ≤ b + 1021).
  { apply Hj; [lia|]. subst t.
    rewrite Qabs_Qmult, (Qabs_pos (inject_Z scale)) by lra.
    replace (b + 1021 + 53) with (b + 1074) by lia.
    rewrite Z.pow_add_r, inject_Z_mult by lia. fold scale.
    by apply Qmult_lt_compat_r. }
  set (e := ulp_exp t) in *.
  pose proof (inject_Z_pow2_pos e He0) as HP.
  pose proof (py_round_half (t / inject_Z (2 ^ e))) as Hh.
  set (M := py_round (t / inject_Z (2 ^ e))) in *.
  assert (Hpe : (inject_Z (2 ^ e) <= inject_Z (2 ^ b) * inject_Z (2 ^ 1021))%Q).
  { rewrite <- inject_Z_mult, <- Z.pow_add_r, <- Zle_Qle by lia.
    apply Z.pow_le_mono_r; lia. }
  assert (Hs : (inject_Z scale == inject_Z (2 ^ 1021) * inject_Z (2 ^ 53))%Q)
    by (by rewrite <- inject_Z_mult).
  pose proof (inject_Z_pow2_pos 1021 ltac:(lia)) as H1021.
  set (A := inject_Z (2 ^ 1021)) in *.
  pose proof (inject_Z_pow2_pos b Hb) as HB.
  set (B := inject_Z (2 ^ b)) in *.
  rewrite inject_Z_mult. set (P := inject_Z (2 ^ e)) in *.
  set (S := inject_Z scale) in *.
  assert (E : (inject_Z M * P / S - x == - ((t / P - inject_Z M) * P) * / S)%Q)
    by (subst t; field; lra).
  assert (Hinv : (0 < / S)%Q) by (by apply Qinv_lt_0_compat).
  rewrite E, Qabs_Qmult, Qabs_opp, Qabs_Qmult, (Qabs_pos P), (Qabs_pos (/ S))
    by lra.
  change (inject_Z (2 ^ 54)) with 18014398509481984%Q.
  change (inject_Z (2 ^ 53)) with 9007199254740992%Q in Hs.
  apply Qle_shift_div_l; [lra|].
  set (h := Qabs (t / P - inject_Z M)) in *.
  assert (Hh0 : (0 <= h)%Q) by apply Qabs_nonneg.
  assert (H1 : (h * P <= (1 # 2) * (B * A))%Q) by nra.
  assert (H2 : (h * P * / S * S == h * P)%Q) by (field; lra).
  assert (H3 : (h * P * / S * 18014398509481984 ==
                (h * P * / S * S) * / A * 2)%Q).
  { rewrite Hs. field. lra. }
  rewrite H3, H2.
  assert (H4 : ((1 # 2) * (B * A) * / A * 2 == B)%Q) by (field; lra).
  rewrite <- H4.
  apply Qmult_le_compat_r; [|lra].
  apply Qmult_le_compat_r; [done|].
  apply Qlt_le_weak. by apply Qinv_lt_0_compat.
Qed.

(** ** The reward formula in double precision *)

Lemma Qfloor_unique (x : Q) (n : Z) :
  (inject_Z n <= x)%Q → (x < inject_Z n + 1)%Q → Qfloor x = n.
Proof.
  intros Hlo Hhi.
  pose proof (Qfloor_le x) as H1. pose proof (Qlt_floor x) as H2.
  rewrite inject_Z_plus in H2. change (inject_Z 1) with 1%Q in H2.
  assert (Ha : (inject_Z n < inject_Z (Qfloor x + 1))%Q).
  { rewrite inject_Z_plus. change (inject_Z 1) with 1%Q. lra. }
  assert (Hb : (inject_Z (Qfloor x) < inject_Z (n + 1))%Q).
  { rewrite inject_Z_plus. change (inject_Z 1) with 1%Q. lra. }
  rewrite <- Zlt_Qlt in Ha, Hb. lia.
Qed.

Lemma is_double_0 : is_double 0.
Proof. by apply (is_double_Z 0). Qed.

Lemma is_double_100 : is_double 100.
Proof. by apply (is_double_Z 100). Qed.

Lemma is_double_half : is_double (1 # 2).
Proof. exists 1, 1073. split; [lia|]. split; [done|]. by vm_compute. Qed.

Lemma to_double_range (lo hi x : Q) :
  is_double lo → is_double hi → (lo <= x)%Q → (x <= hi)%Q →
  (lo <= to_double x)%Q ∧ (to_double x <= hi)%Q.
Proof. intros. split; [by apply to_double_ge|by apply to_double_le]. Qed.

Lemma fl_sub_100_range (p : Q) :
  (0 <= p)%Q → (p <= 100)%Q →
  (0 <= fl_sub 100 p)%Q ∧ (fl_sub 100 p <= 100)%Q.
Proof.
  intros. apply to_double_range; [apply is_double_0|apply is_double_100|lra..].
Qed.

(** Halving a double is exact, but for the smallest subnormal numbers. *)
Lemma fl_half_floor (a : Q) :
  is_double a → (0 <= a)%Q →
  (0 <= fl_mul a (1 # 2))%Q ∧
  Qfloor (fl_mul a (1 # 2)) = Qfloor (a * (1 # 2)).
Proof.
  intros Ha H0. split.
  { apply to_double_ge; [apply is_double_0|lra]. }
  destruct Ha as (m & k & Hk & Hm & Ha).
  pose proof scale_pos as HS.
  destruct (decide (k = 0)) as [->|Hne].
  - assert (Hlt : (a < 1)%Q).
    { rewrite Ha. apply Qlt_shift_div_r; [done|]. rewrite Qmult_1_l.
      rewrite <- Zlt_Qlt. change (2 ^ 0) with 1.
      assert (2 ^ 53 < scale) by done. lia. }
    destruct (to_double_range 0 (1 # 2) (a * (1 # 2)))
      as [H1 H2]; [apply is_double_0|apply is_double_half|lra|lra|].
    unfold fl_mul.
    rewrite (Qfloor_unique (to_double _) 0), (Qfloor_unique (a * _) 0);
      [done|change (inject_Z 0) with 0%Q; lra..].
  - apply Qfloor_comp. apply to_double_fix.
    exists m, (k - 1). split; [lia|]. split; [done|].
    rewrite Ha. replace (2 ^ k) with (2 * 2 ^ (k - 1))
      by (rewrite <- (Z.pow_succ_r 2 (k - 1)) by lia; f_equal; lia).
    replace (m * (2 * 2 ^ (k - 1))) with (m * 2 ^ (k - 1) * 2) by lia.
    rewrite (inject_Z_mult _ 2). change (inject_Z 2) with 2%Q.
    field. lra.
Qed.

Lemma Qfloor_half_bounds (a : Q) :
  (0 <= a)%Q → (a <= 50)%Q → 0 ≤ Qfloor a ≤ 50.
Proof.
  intros H0 H1. split.
  - change 0 with (Qfloor 0). by apply Qfloor_resp_le.
  - change 50 with (Qfloor 50). by apply Qfloor_resp_le.
Qed.

Lemma is_double_50 : is_double 50.
Proof. by apply (is_double_Z 50). Qed.

Lemma compute_reward_bounds (outcome : json) (p : Q) :
  (0 <= p)%Q → (p <= 100)%Q → 0 ≤ compute_reward outcome p ≤ 50.
Proof.
  intros H0 H1. unfold compute_reward.
  set (a := if is_yes outcome then p else fl_sub 100 p).
  assert (Ha : (0 <= a)%Q ∧ (a <= 100)%Q).
  { subst a. destruct (is_yes outcome); [done|by apply fl_sub_100_range]. }
  destruct Ha as [Ha0 Ha1].
  destruct (to_double_range 0 50 (a * (1 # 2)))
    as [H2 H3]; [apply is_double_0|apply is_double_50|lra|lra|].
  rewrite py_int_floor by done. by apply Qfloor_half_bounds.
Qed.

Lemma compute_reward_floor (outcome : json) (p : Q) :
  (0 <= p)%Q → (p <= 100)%Q → (is_yes outcome = true → is_double p) →
  compute_reward outcome p =
  Qfloor ((if is_yes outcome then p else fl_sub 100 p) * (1 # 2)).
Proof.
  intros H0 H1 Hd. unfold compute_reward.
  set (a := if is_yes outcome then p else fl_sub 100 p).
  assert (Ha : is_double a ∧ (0 <= a)%Q).
  { subst a. destruct (is_yes outcome); [by split; [apply Hd|]|].
    split; [apply to_double_is_double|by apply fl_sub_100_range]. }
  destruct Ha as [Ha Ha0].
  destruct (fl_half_floor a Ha Ha0) as [Hn Hf].
  by rewrite py_int_floor.
Qed.

(** The reward on [100 - p] computed in doubles is the exact one, or one
    more. *)
Lemma Qfloor_half_double (x : Q) :
  (0 <= x)%Q → (x <= 100)%Q →
  Qfloor (x * (1 # 2)) ≤ Qfloor (to_double x * (1 # 2)) ≤
  Qfloor (x * (1 # 2)) + 1.
Proof.
  intros H0 H1. set (j := Qfloor (x * (1 # 2))).
  pose proof (Qfloor_le (x * (1 # 2))) as Hlo.
  pose proof (Qlt_floor (x * (1 # 2))) as Hhi. fold j in Hlo, Hhi.
  rewrite inject_Z_plus in Hhi. change (inject_Z 1) with 1%Q in Hhi.
  assert (Hj : 0 ≤ j ≤ 50).
  { subst j. apply Qfloor_half_bounds; lra. }
  assert (Hd1 : is_double (inject_Z (2 * j))) by (apply is_double_Z; lia).
  assert (Hd2 : is_double (inject_Z (2 * j + 2))) by (apply is_double_Z; lia).
  assert (E1 : (inject_Z (2 * j) == 2 * inject_Z j)%Q)
    by (by rewrite inject_Z_mult).
  assert (E2 : (inject_Z (2 * j + 2) == 2 * inject_Z j + 2)%Q)
    by (by rewrite inject_Z_plus, inject_Z_mult).
  destruct (to_double_range _ _ x Hd1 Hd2) as [H2 H3]; [lra|lra|].
  split.
  - assert (Hle : (inject_Z j <= to_double x * (1 # 2))%Q) by lra.
    apply Qfloor_resp_le in Hle. by rewrite Qfloor_Z in Hle.
  - assert (Hle : (to_double x * (1 # 2) <= inject_Z (j + 1))%Q).
    { rewrite inject_Z_plus. change (inject_Z 1) with 1%Q. lra. }
    apply Qfloor_resp_le in Hle. by rewrite Qfloor_Z in Hle.
Qed.

(** ** Rounding a quotient of integers *)

Lemma py_round_inside (k : Z) (x : Q) :
  (inject_Z k - (1 # 2) < x)%Q → (x < inject_Z k + (1 # 2))%Q →
  py_round x = k.
Proof.
  intros Hlo Hhi.
  pose proof (Qfloor_le x) as H1. pose proof (Qlt_floor x) as H2.
  rewrite inject_Z_plus in H2. change (inject_Z 1) with 1%Q in H2.
  assert (Hf : Qfloor x = k - 1 ∨ Qfloor x = k).
  { assert (Ha : (inject_Z (k - 2) < inject_Z (Qfloor x))%Q).
    { replace (k - 2) with (k + (-2)) by lia. rewrite inject_Z_plus.
      change (inject_Z (-2)) with (-2 # 1)%Q. lra. }
    assert (Hb : (inject_Z (Qfloor x) < inject_Z (k + 1))%Q).
    { rewrite inject_Z_plus. change (inject_Z 1) with 1%Q. lra. }
    rewrite <- Zlt_Qlt in Ha, Hb. lia. }
  unfold py_round.
  destruct Hf as [Hf|Hf]; rewrite Hf in *.
  - replace (k - 1) with (k + (-1)) in * by lia.
    rewrite inject_Z_plus in *. change (inject_Z (-1)) with (-1 # 1)%Q in *.
    destruct (Qcompare_spec (x - (inject_Z k + (-1 # 1))) (1 # 2)); [lra|lra|lia].
  - destruct (Qcompare_spec (x - inject_Z k) (1 # 2)); [lra|lia|lra].
Qed.

(** A perturbation smaller than 1/(2n) does not change the rounding of a
    fraction with denominator [n], half-way cases apart. *)
Lemma py_round_rational (T n : Z) (x' : Q) :
  0 < n →
  (Qabs (x' - inject_Z T / inject_Z n) < 1 / (2 * inject_Z n))%Q →
  ((∃ k : Z, inject_Z T / inject_Z n == inject_Z k + (1 # 2))%Q →
   (x' == inject_Z T / inject_Z n)%Q) →
  py_round x' = py_round (inject_Z T / inject_Z n).
Proof.
  intros Hn Herr Htie.
  assert (HnQ : (0 < inject_Z n)%Q)
    by (change 0%Q with (inject_Z 0); by rewrite <- Zlt_Qlt).
  set (N := inject_Z n) in *. set (x := (inject_Z T / N)%Q) in *.
  assert (HT : (inject_Z T == x * N)%Q) by (subst x; field; lra).
  set (d := (1 / (2 * N))%Q) in *.
  assert (Hd : (d * (2 * N) == 1)%Q) by (subst d; field; lra).
  assert (Hd0 : (0 < d)%Q) by nra.
  assert (Hd1 : (d <= 1 # 2)%Q).
  { assert (1 <= N)%Q; [|nra].
    change 1%Q with (inject_Z 1). subst N. rewrite <- Zle_Qle. lia. }
  destruct (Qabs_lower (x' - x)) as [He1 He2].
  set (f := Qfloor x).
  pose proof (Qfloor_le x) as H1. pose proof (Qlt_floor x) as H2.
  fold f in H1, H2.
  rewrite inject_Z_plus in H2. change (inject_Z 1) with 1%Q in H2.
  destruct (Qcompare_spec (x - inject_Z f) (1 # 2)) as [He|Hl|Hg].
  - apply py_round_comp, Htie. exists f. lra.
  - assert (HZ : 2 * T < (2 * f + 1) * n).
    { rewrite Zlt_Qlt, !inject_Z_mult, inject_Z_plus, inject_Z_mult.
      change (inject_Z 2) with 2%Q. change (inject_Z 1) with 1%Q. fold N.
      rewrite HT. nra. }
    assert (HQ : (inject_Z (2 * T + 1) <= inject_Z ((2 * f + 1) * n))%Q)
      by (rewrite <- Zle_Qle; lia).
    rewrite inject_Z_plus, !inject_Z_mult, inject_Z_plus, inject_Z_mult in HQ.
    change (inject_Z 2) with 2%Q in HQ. change (inject_Z 1) with 1%Q in HQ.
    fold N in HQ. rewrite HT in HQ.
    assert (Hm : (x + d <= inject_Z f + (1 # 2))%Q) by nra.
    rewrite (py_round_inside f x'), (py_round_inside f x); [done|lra..].
  - assert (HZ : (2 * f + 1) * n < 2 * T).
    { rewrite Zlt_Qlt, !inject_Z_mult, inject_Z_plus, inject_Z_mult.
      change (inject_Z 2) with 2%Q. change (inject_Z 1) with 1%Q. fold N.
      rewrite HT. nra. }
    assert (HQ : (inject_Z ((2 * f + 1) * n + 1) <= inject_Z (2 * T))%Q)
      by (rewrite <- Zle_Qle; lia).
    rewrite inject_Z_plus, !inject_Z_mult, inject_Z_plus, inject_Z_mult in HQ.
    change (inject_Z 2) with 2%Q in HQ. change (inject_Z 1) with 1%Q in HQ.
    fold N in HQ. rewrite HT in HQ.
    assert (Hm : (inject_Z f + (1 # 2) <= x - d)%Q) by nra.
    rewrite (py_round_inside (f + 1) x'), (py_round_inside (f + 1) x);
      [done|rewrite inject_Z_plus; change (inject_Z 1) with 1%Q; lra..].
Qed.

Lemma is_double_half_Z (k : Z) :
  Z.abs (2 * k + 1) < 2 ^ 53 → is_double (inject_Z k + (1 # 2)).
Proof.
  intros Hk. exists (2 * k + 1), 1073. split; [lia|]. split; [done|].
  pose proof scale_pos as HS.
  rewrite inject_Z_mult, inject_Z_plus, inject_Z_mult.
  change (inject_Z 2) with 2%Q. change (inject_Z 1) with 1%Q.
  assert (Hs : (inject_Z scale == 2 * inject_Z (2 ^ 1073))%Q) by done.
  pose proof (inject_Z_pow2_pos 1073 ltac:(lia)) as Hp.
  rewrite Hs. field. lra.
Qed.

(** ** Sums *)

Lemma whole_iff (q : Q) : whole q ↔ ∃ z : Z, (q == inject_Z z)%Q.
Proof.
  split; [intros H; by eexists|]. intros [z Hz]. unfold whole.
  by rewrite (Qfloor_comp _ _ Hz), Qfloor_Z.
Qed.

Lemma Qsum_snoc (l : list Q) (x : Q) : (Qsum (l ++ [x]) == Qsum l + x)%Q.
Proof.
  unfold Qsum. induction l as [|y l IH]; cbn [app foldr]; [lra|].
  rewrite IH. lra.
Qed.

Lemma Qsum_bounds (xs : list Q) :
  Forall (λ x, (0 <= x)%Q ∧ (x <= 100)%Q) xs →
  (0 <= Qsum xs)%Q ∧ (Qsum xs <= 100 * inject_Z (Z.of_nat (length xs)))%Q.
Proof.
  induction 1 as [|x xs [H0 H1] _ [IH0 IH1]]; unfold Qsum in *.
  - cbn [foldr]. change (inject_Z (Z.of_nat (length (@nil Q)))) with 0%Q.
    split; lra.
  - cbn [foldr length]. rewrite Nat2Z.inj_succ, <- Z.add_1_r, inject_Z_plus.
    change (inject_Z 1) with 1%Q. split; lra.
Qed.

Lemma Qsum_whole (xs : list Q) :
  Forall whole xs → ∃ z : Z, (Qsum xs == inject_Z z)%Q.
Proof.
  induction 1 as [|x xs Hx _ [z IH]]; unfold Qsum in *.
  - by exists 0.
  - exists (Qfloor x + z). cbn [foldr]. rewrite IH, inject_Z_plus.
    unfold whole in Hx. by rewrite <- Hx.
Qed.

Lemma length_snoc_Z {A} (l : list A) (x : A) :
  inject_Z (Z.of_nat (length (l ++ [x]))) =
  inject_Z (Z.of_nat (length l) + 1).
Proof. rewrite length_app. simpl. f_equal. lia. Qed.

(** The partial sums of numbers between 0 and 100 stay between 0 and 100
    times their count. *)
Lemma double_sum_range (xs : list Q) :
  Forall (λ x, (0 <= x)%Q ∧ (x <= 100)%Q) xs →
  100 * Z.of_nat (length xs) ≤ 2 ^ 53 →
  (0 <= foldl fl_add 0 xs)%Q ∧
  (foldl fl_add 0 xs <= 100 * inject_Z (Z.of_nat (length xs)))%Q.
Proof.
  induction xs as [|x xs IH] using rev_ind; intros Hall Hlen.
  - split; done.
  - apply Forall_app in Hall as [Hxs Hx]. apply Forall_inv in Hx as Hx.
    destruct Hx as [Hx0 Hx1].
    rewrite length_app in Hlen. simpl in Hlen.
    destruct IH as [IH0 IH1]; [done|lia|].
    rewrite foldl_app. cbn [foldl]. rewrite length_snoc_Z, inject_Z_plus.
    change (inject_Z 1) with 1%Q.
    set (s := foldl fl_add 0%Q xs) in *. unfold fl_add.
    set (n := Z.of_nat (length xs)) in *.
    assert (Hd : is_double (inject_Z (100 * (n + 1))))
      by (apply is_double_Z; lia).
    assert (E : (inject_Z (100 * (n + 1)) == 100 * (inject_Z n + 1))%Q)
      by (by rewrite inject_Z_mult, inject_Z_plus).
    split.
    + apply to_double_ge; [apply is_double_0|]. lra.
    + rewrite <- E. apply to_double_le; [done|]. rewrite E. lra.
Qed.

(** Adding whole numbers is exact. *)
Lemma double_sum_whole (xs : list Q) :
  Forall (λ x, whole x ∧ (0 <= x)%Q ∧ (x <= 100)%Q) xs →
  100 * Z.of_nat (length xs) ≤ 2 ^ 53 →
  (foldl fl_add 0 xs == Qsum xs)%Q.
Proof.
  induction xs as [|x xs IH] using rev_ind; intros Hall Hlen; [done|].
  pose proof Hall as Hall'.
  apply Forall_app in Hall as [Hxs Hx]. apply Forall_inv in Hx as Hx.
  rewrite length_app in Hlen. simpl in Hlen.
  rewrite foldl_app. cbn [foldl].
  set (s := foldl fl_add 0%Q xs) in *. unfold fl_add.
  rewrite (to_double_comp _ (Qsum (xs ++ [x])))
    by (rewrite IH, Qsum_snoc by (done || lia); reflexivity).
  apply to_double_fix.
  destruct (Qsum_whole (xs ++ [x])) as [z Hz].
  { eapply Forall_impl; [exact Hall'|]. by intros ? [? _]. }
  destruct (Qsum_bounds (xs ++ [x])) as [H0 H1].
  { eapply Forall_impl; [exact Hall'|]. by intros ? [_ ?]. }
  rewrite length_snoc_Z in H1.
  apply (is_double_comp (inject_Z z)); [by rewrite Hz|].
  apply is_double_Z.
  set (n := Z.of_nat (length xs)) in *.
  assert (Ha : (inject_Z 0 <= inject_Z z)%Q)
    by (change (inject_Z 0) with 0%Q; lra).
  assert (Hb : (inject_Z z <= inject_Z (100 * (n + 1)))%Q).
  { rewrite inject_Z_mult. change (inject_Z 100) with 100%Q. lra. }
  rewrite <- Zle_Qle in Ha, Hb. lia.
Qed.

(** The error of a sum of at most 2^20 numbers between 0 and 100. *)
Lemma double_sum_error (xs : list Q) :
  Forall (λ x, (0 <= x)%Q ∧ (x <= 100)%Q) xs →
  Z.of_nat (length xs) ≤ 2 ^ 20 →
  (Qabs (foldl fl_add 0 xs - Qsum xs) <=
   inject_Z (Z.of_nat (length xs)) * (1 # 2 ^ 27))%Q.
Proof.
  induction xs as [|x xs IH] using rev_ind; intros Hall Hlen.
  - cbn. done.
  - pose proof Hall as Hall'.
    apply Forall_app in Hall as [Hxs Hx]. apply Forall_inv in Hx as Hx.
    rewrite length_app in Hlen. simpl in Hlen.
    specialize (IH Hxs ltac:(lia)).
    destruct (double_sum_range xs Hxs) as [Hs0 Hs1]; [lia|].
    rewrite foldl_app. cbn [foldl]. rewrite length_snoc_Z, inject_Z_plus.
    change (inject_Z 1) with 1%Q.
    set (s := foldl fl_add 0%Q xs) in *. unfold fl_add.
    set (n := Z.of_nat (length xs)) in *.
    assert (Hn : (inject_Z n <= 1048576)%Q).
    { change 1048576%Q with (inject_Z (2 ^ 20)). rewrite <- Zle_Qle. lia. }
    pose proof (to_double_error (s + x) 27) as He.
    change (inject_Z (2 ^ 27) / inject_Z (2 ^ 54))%Q with
      (134217728 # 18014398509481984)%Q in He.
    change (inject_Z (2 ^ 27)) with 134217728%Q in He.
    assert (Hsx : (Qabs (s + x) < 134217728)%Q).
    { rewrite Qabs_pos by lra. lra. }
    specialize (He ltac:(lia) Hsx).
    rewrite Qsum_snoc.
    destruct (Qabs_lower (to_double (s + x) - (s + x))).
    destruct (Qabs_lower (s - Qsum xs)).
    apply Qabs_Qle_condition in He, IH.
    change (1 # 2 ^ 27)%Q with (1 # 134217728)%Q in *.
    apply Qabs_upper; lra.
Qed.

Lemma Qsum_close {A} (g h : A → Q) (eps : Q) (l : list A) :
  Forall (λ a, (Qabs (g a - h a) <= eps)%Q) l →
  (Qabs (Qsum (g <$> l) - Qsum (h <$> l)) <=
   inject_Z (Z.of_nat (length l)) * eps)%Q.
Proof.
  induction 1 as [|a l Ha _ IH]; unfold Qsum in *.
  - cbn. done.
  - rewrite !fmap_cons. cbn [foldr length].
    rewrite Nat2Z.inj_succ, <- Z.add_1_r, inject_Z_plus.
    change (inject_Z 1) with 1%Q.
    apply Qabs_Qle_condition in Ha, IH. apply Qabs_upper; lra.
Qed.

(** Below 128 the rounding error is at most 2^-47. *)
Lemma to_double_error_128 (x : Q) :
  (Qabs x < 128)%Q → (Qabs (to_double x - x) <= 1 # 2 ^ 47)%Q.
Proof.
  intros Hx. pose proof (to_double_error x 7 ltac:(lia) Hx) as H.
  eapply Qle_trans; [exact H|]. by vm_compute.
Qed.

(** ** The two averages of the program *)

Lemma length_pos_Q {A} (l : list A) :
  l ≠ [] → (1 <= inject_Z (Z.of_nat (length l)))%Q.
Proof.
  intros Hne. change 1%Q with (inject_Z 1). rewrite <- Zle_Qle.
  destruct l; [done|]. simpl. lia.
Qed.

Lemma mean_bounds (xs : list Q) :
  xs ≠ [] → Forall (λ x, (0 <= x)%Q ∧ (x <= 100)%Q) xs →
  (0 <= mean xs)%Q ∧ (mean xs <= 100)%Q.
Proof.
  intros Hne Hall. destruct (Qsum_bounds xs Hall) as [H0 H1]. unfold mean.
  pose proof (length_pos_Q xs Hne) as Hn.
  split.
  - apply Qle_shift_div_l; lra.
  - apply Qle_shift_div_r; lra.
Qed.

Lemma foldl_fl_add_ext {A} (g h : A → Q) (a : Q) (l : list A) :
  Forall (λ x, (g x == h x)%Q) l →
  foldl fl_add a (g <$> l) = foldl fl_add a (h <$> l).
Proof.
  intros Hall. revert a. induction Hall as [|x l Hx _ IH]; intros a; [done|].
  rewrite !fmap_cons. cbn [foldl]. unfold fl_add at 2 4.
  rewrite (to_double_comp (a + g x) (a + h x)) by (by rewrite Hx). apply IH.
Qed.

Lemma Qsum_ext {A} (g h : A → Q) (l : list A) :
  Forall (λ x, (g x == h x)%Q) l → (Qsum (g <$> l) == Qsum (h <$> l))%Q.
Proof.
  induction 1 as [|x l Hx _ IH]; [done|].
  rewrite !fmap_cons. unfold Qsum in *. cbn [foldr]. by rewrite Hx, IH.
Qed.

Lemma sqlite_avg_range (ps : list Q) :
  ps ≠ [] → Forall (λ x, (0 <= x)%Q ∧ (x <= 100)%Q) ps →
  100 * Z.of_nat (length ps) ≤ 2 ^ 53 →
  (0 <= sqlite_avg ps)%Q ∧ (sqlite_avg ps <= 100)%Q.
Proof.
  intros Hne Hall Hlen. destruct (double_sum_range ps Hall Hlen) as [H0 H1].
  pose proof (length_pos_Q ps Hne) as Hn.
  apply to_double_range; [apply is_double_0|apply is_double_100| |].
  - apply Qle_shift_div_l; lra.
  - apply Qle_shift_div_r; lra.
Qed.

Lemma half_ulp_lt (n : Z) (k : positive) :
  0 < n → 2 * n < Z.pos k →
  ((1 # k) < 1 / (2 * inject_Z n))%Q.
Proof.
  intros Hn Hk.
  assert (HnQ : (0 < inject_Z n)%Q)
    by (change 0%Q with (inject_Z 0); by rewrite <- Zlt_Qlt).
  apply Qlt_shift_div_l; [lra|].
  assert (Hq : (inject_Z (2 * n) < inject_Z (Z.pos k))%Q)
    by (by rewrite <- Zlt_Qlt).
  rewrite inject_Z_mult in Hq. change (inject_Z 2) with 2%Q in Hq.
  assert (E : (inject_Z (Z.pos k) * (1 # k) == 1)%Q).
  { unfold Qeq, inject_Z. simpl. lia. }
  assert (Hk0 : (0 < (1 # k))%Q) by done.
  nra.
Qed.


(** The average of at most 2^20 numbers between 0 and 100 is within 2^-26
    of their mean. *)
Lemma sqlite_avg_error (ps : list Q) :
  ps ≠ [] → Forall (λ x, (0 <= x)%Q ∧ (x <= 100)%Q) ps →
  Z.of_nat (length ps) ≤ 2 ^ 20 →
  (Qabs (sqlite_avg ps - mean ps) <= (1 # 2 ^ 27) + (1 # 2 ^ 47))%Q.
Proof.
  intros Hne Hall Hlen.
  pose proof (double_sum_error ps Hall Hlen) as He.
  destruct (double_sum_range ps Hall) as [Hs0 Hs1]; [lia|].
  pose proof (length_pos_Q ps Hne) as Hn.
  unfold sqlite_avg, mean, fl_div.
  set (n := inject_Z (Z.of_nat (length ps))) in *.
  set (s := foldl fl_add 0%Q ps) in *. set (S := Qsum ps) in *.
  assert (Hq : (0 <= s / n)%Q ∧ (s / n <= 100)%Q).
  { split; [apply Qle_shift_div_l|apply Qle_shift_div_r]; lra. }
  pose proof (to_double_error_128 (s / n)) as Hr.
  rewrite (Qabs_pos (s / n)) in Hr by lra. specialize (Hr ltac:(lra)).
  change (1 # 2 ^ 27)%Q with (1 # 134217728)%Q in *.
  change (1 # 2 ^ 47)%Q with (1 # 140737488355328)%Q in *.
  apply Qabs_Qle_condition in He, Hr.
  assert (Hd : (Qabs (s / n - S / n) <= 1 # 134217728)%Q).
  { assert (E : (s / n - S / n == (s - S) * / n)%Q) by (field; lra).
    assert (Hinv : (0 < / n)%Q) by (apply Qinv_lt_0_compat; lra).
    rewrite E. apply Qabs_upper.
    - assert ((- (n * (1 # 134217728))) * / n <= (s - S) * / n)%Q
        by (apply Qmult_le_compat_r; lra).
      assert (((- (n * (1 # 134217728))) * / n == - (1 # 134217728))%Q)
        by (field; lra).
      lra.
    - assert ((s - S) * / n <= (n * (1 # 134217728)) * / n)%Q
        by (apply Qmult_le_compat_r; lra).
      assert (((n * (1 # 134217728)) * / n == (1 # 134217728))%Q)
        by (field; lra).
      lra. }
  apply Qabs_Qle_condition in Hd. apply Qabs_upper; lra.
Qed.

(** The contribution of one forecast to the accuracy. *)
Lemma contribution_range (p : Q) :
  (0 <= p)%Q → (p <= 100)%Q →
  (0 <= py_abs (fl_sub 100 p))%Q ∧ (py_abs (fl_sub 100 p) <= 100)%Q.
Proof.
  intros H0 H1. destruct (fl_sub_100_range p H0 H1).
  unfold py_abs. rewrite Qabs_pos by done. done.
Qed.

Lemma contribution_whole (p : Q) :
  whole p → (0 <= p)%Q → (p <= 100)%Q →
  (py_abs (fl_sub 100 p) == Qabs (100 - p))%Q ∧ whole (Qabs (100 - p)).
Proof.
  intros Hw H0 H1.
  assert (Ea : (Qabs (100 - p) == 100 - p)%Q) by (apply Qabs_pos; lra).
  assert (Hz : (100 - p == inject_Z (100 - Qfloor p))%Q).
  { unfold Zminus. rewrite inject_Z_plus, inject_Z_opp.
    change (inject_Z 100) with 100%Q. unfold whole in Hw. lra. }
  split; [|apply whole_iff; eexists; by rewrite Ea].
  rewrite Ea. unfold py_abs, fl_sub. rewrite to_double_fix.
  - rewrite Qabs_pos; lra.
  - apply (is_double_comp (inject_Z (100 - Qfloor p))); [by rewrite Hz|].
    apply is_double_Z.
    assert (Ha : (inject_Z 0 <= inject_Z (100 - Qfloor p))%Q)
      by (rewrite <- Hz; change (inject_Z 0) with 0%Q; lra).
    assert (Hb : (inject_Z (100 - Qfloor p) <= inject_Z 100)%Q)
      by (rewrite <- Hz; change (inject_Z 100) with 100%Q; lra).
    rewrite <- Zle_Qle in Ha, Hb. lia.
Qed.

Lemma contribution_error (p : Q) :
  (0 <= p)%Q → (p <= 100)%Q →
  (Qabs (py_abs (fl_sub 100 p) - Qabs (100 - p)) <= 1 # 2 ^ 47)%Q.
Proof.
  intros H0 H1. destruct (fl_sub_100_range p H0 H1).
  unfold py_abs.
  rewrite (Qabs_pos (fl_sub 100 p)), (Qabs_pos (100 - p)) by lra.
  apply to_double_error_128. rewrite Qabs_pos by lra. lra.
Qed.

Lemma accuracy_value_range (cs : list Q) :
  cs ≠ [] → Forall (λ x, (0 <= x)%Q ∧ (x <= 100)%Q) cs →
  100 * Z.of_nat (length cs) ≤ 2 ^ 53 →
  (0 <= fl_sub 100 (sqlite_avg cs))%Q ∧ (fl_sub 100 (sqlite_avg cs) <= 100)%Q.
Proof.
  intros Hne Hall Hlen.
  destruct (sqlite_avg_range cs Hne Hall Hlen) as [H0 H1].
  by apply fl_sub_100_range.
Qed.

(** For whole percentages the accuracy is rounded as the exact value is. *)
Lemma accuracy_value_whole (cs : list Q) :
  cs ≠ [] → Forall (λ x, whole x ∧ (0 <= x)%Q ∧ (x <= 100)%Q) cs →
  Z.of_nat (length cs) < 2 ^ 45 →
  py_round (fl_sub 100 (sqlite_avg cs)) = py_round (100 - mean cs).
Proof.
  intros Hne Hall Hlen.
  assert (Hr : Forall (λ x, (0 <= x)%Q ∧ (x <= 100)%Q) cs).
  { eapply Forall_impl; [exact Hall|]. by intros ? [_ ?]. }
  destruct (Qsum_whole cs) as [T HT].
  { eapply Forall_impl; [exact Hall|]. by intros ? [? _]. }
  pose proof (double_sum_whole cs Hall ltac:(lia)) as Hs.
  destruct (mean_bounds cs Hne Hr) as [Hm0 Hm1].
  pose proof (length_pos_Q cs Hne) as Hn.
  set (n := Z.of_nat (length cs)) in *.
  assert (Hn0 : 0 < n) by (destruct cs; [done|]; subst n; simpl; lia).
  assert (Em : (mean cs == inject_Z T / inject_Z n)%Q).
  { unfold mean. fold n. by rewrite HT. }
  assert (Ex : (100 - mean cs == inject_Z (100 * n - T) / inject_Z n)%Q).
  { rewrite Em. unfold Zminus.
    rewrite inject_Z_plus, inject_Z_mult, inject_Z_opp.
    change (inject_Z 100) with 100%Q. field. lra. }
  unfold sqlite_avg, fl_div. fold n.
  set (q := to_double (foldl fl_add 0%Q cs / inject_Z n)).
  assert (Eq' : q = to_double (mean cs)).
  { subst q. apply to_double_comp. unfold mean. fold n. by rewrite Hs. }
  assert (Hq : (0 <= q)%Q ∧ (q <= 100)%Q).
  { rewrite Eq'.
    apply to_double_range; [apply is_double_0|apply is_double_100|done..]. }
  pose proof (to_double_error_128 (mean cs)) as He1.
  pose proof (to_double_error_128 (100 - q)) as He2.
  change (1 # 2 ^ 47)%Q with (1 # 140737488355328)%Q in *.
  rewrite (Qabs_pos (mean cs)) in He1 by lra.
  rewrite (Qabs_pos (100 - q)) in He2 by lra.
  specialize (He1 ltac:(lra)). specialize (He2 ltac:(lra)).
  rewrite <- Eq' in He1.
  rewrite (py_round_comp _ _ Ex).
  apply py_round_rational; [done| |].
  - rewrite <- Ex. unfold fl_sub.
    apply (Qle_lt_trans _ (1 # 70368744177664)); [|apply half_ulp_lt; lia].
    apply Qabs_Qle_condition in He1, He2. apply Qabs_upper; lra.
  - intros [k Hk]. rewrite <- Ex in Hk. rewrite <- Ex. unfold fl_sub.
    assert (Hk' : (mean cs == inject_Z (99 - k) + (1 # 2))%Q).
    { unfold Zminus. rewrite inject_Z_plus, inject_Z_opp.
      change (inject_Z 99) with 99%Q. lra. }
    assert (Hkr : -1 ≤ k ≤ 100).
    { assert (Ha : (inject_Z (-2) < inject_Z k)%Q)
        by (change (inject_Z (-2)) with (-2 # 1)%Q; lra).
      assert (Hb : (inject_Z k < inject_Z 101)%Q)
        by (change (inject_Z 101) with 101%Q; lra).
      rewrite <- Zlt_Qlt in Ha, Hb. lia. }
    assert (Eq2 : (q == mean cs)%Q).
    { rewrite Eq'. apply to_double_fix.
      apply (is_double_comp (inject_Z (99 - k) + (1 # 2))); [by rewrite Hk'|].
      apply is_double_half_Z. lia. }
    rewrite (to_double_comp _ (100 - mean cs)) by (by rewrite Eq2).
    apply to_double_fix.
    apply (is_double_comp (inject_Z k + (1 # 2))); [by rewrite Hk|].
    apply is_double_half_Z. lia.
Qed.

Lemma accuracy_value_error (cs es : list Q) :
  cs ≠ [] → Forall (λ x, (0 <= x)%Q ∧ (x <= 100)%Q) cs →
  Z.of_nat (length cs) ≤ 2 ^ 20 →
  (Qabs (mean cs - mean es) <= 1 # 2 ^ 47)%Q →
  (Qabs (fl_sub 100 (sqlite_avg cs) - (100 - mean es)) <= 1 # 2 ^ 26)%Q.
Proof.
  intros Hne Hall Hlen Hces.
  pose proof (sqlite_avg_error cs Hne Hall Hlen) as He.
  destruct (sqlite_avg_range cs Hne Hall) as [Hq0 Hq1]; [lia|].
  set (q := sqlite_avg cs) in *.
  pose proof (to_double_error_128 (100 - q)) as He2.
  rewrite (Qabs_pos (100 - q)) in He2 by lra.
  specialize (He2 ltac:(lra)).
  change (1 # 2 ^ 26)%Q with (1 # 67108864)%Q in *.
  change (1 # 2 ^ 27)%Q with (1 # 134217728)%Q in *.
  change (1 # 2 ^ 47)%Q with (1 # 140737488355328)%Q in *.
  unfold fl_sub.
  apply Qabs_Qle_condition in He, He2, Hces. apply Qabs_upper; lra.
Qed.

(** ** Agreement with the doubles of the machine *)

(** At sample points, among them the ones of the examples below, rounding
    and the four operations give what the binary64 arithmetic of the
    machine gives. *)
Example double_precision_agrees :
  (to_double (1 # 10) == Q_of_float 0x1.999999999999ap-4)%Q ∧
  (probability_fractional == Q_of_float 0x1.c000000000001p+3)%Q ∧
  (fl_sub 100 probability_fractional ==
   Q_of_float (100 - 0x1.c000000000001p+3)%float)%Q ∧
  (fl_mul (fl_sub 100 probability_fractional) (1 # 2) ==
   Q_of_float ((100 - 0x1.c000000000001p+3) * 0x1p-1)%float)%Q ∧
  (fl_add probability_fractional 15 ==
   Q_of_float (0x1.c000000000001p+3 + 15)%float)%Q ∧
  (fl_div (fl_add probability_fractional 15) 2 ==
   Q_of_float ((0x1.c000000000001p+3 + 15) / 2)%float)%Q ∧
  (fl_div 1 3 == Q_of_float (1 / 3)%float)%Q ∧
  (fl_div 200 7 == Q_of_float (200 / 7)%float)%Q ∧
  (fl_sub 100 (Q_of_float 0x1p-60) == Q_of_float (100 - 0x1p-60)%float)%Q ∧
  (fl_add (to_double (1 # 10)) (to_double (2 # 10)) ==
   Q_of_float (0x1.999999999999ap-4 + 0x1.999999999999ap-3)%float)%Q ∧
  (fl_mul (Q_of_float 0x0.0000000000003p-1022) (1 # 2) ==
   Q_of_float (0x0.0000000000003p-1022 * 0x1p-1)%float)%Q ∧
  (fl_mul (Q_of_float 0x1p-1022) (to_double (3 # 10)) ==
   Q_of_float (0x1p-1022 * 0x1.3333333333333p-2)%float)%Q.
Proof. by vm_compute. Qed.

(** ** Row ids *)

Lemma max_id_upper {A} (t : gmap Z A) (k : Z) (x : A) :
  t !! k = Some x → k ≤ max_id t.
Proof.
  intros Hk. unfold max_id.
  assert (Hin : k ∈ (map_to_list t).*1).
  { apply list_elem_of_fmap. exists (k, x). split; [done|].
    by apply elem_of_map_to_list. }
  induction ((map_to_list t).*1) as [|k0 ks IH]; [by apply elem_of_nil in Hin|].
  apply elem_of_cons in Hin as [->|Hin]; cbn [foldr]; [lia|].
  specialize (IH Hin). lia.
Qed.

(** The id given to an inserted row is not in use. *)
Lemma next_id_fresh {A} (t : gmap Z A) : t !! next_id t = None.
Proof.
  destruct (t !! next_id t) as [x|] eqn:Hk; [|done].
  apply max_id_upper in Hk. unfold next_id in Hk. lia.
Qed.

(** A successful submission adds one forecast row. *)
Lemma submit_forecast_adds_row (d : db) (uid mid : Z) (p : Q) :
  let forecast_id := next_id (forecasts d) in
  forecasts d !! forecast_id = None ∧
  <[forecast_id := Forecast uid mid p tokens_cost 0]> (forecasts d)
    !! forecast_id = Some (Forecast uid mid p tokens_cost 0).
Proof. split; [apply next_id_fresh|apply lookup_insert_eq]. Qed.

(** ** The rows selected for a market *)

Lemma elem_of_forecasts_of_market (mid k : Z) (f : forecast) (t : gmap Z forecast) :
  (k, f) ∈ forecasts_of_market mid t ↔ t !! k = Some f ∧ market_id f = mid.
Proof.
  unfold forecasts_of_market.
  rewrite elem_of_map_to_list, map_lookup_filter_Some. done.
Qed.

Lemma NoDup_forecasts_of_market (mid : Z) (t : gmap Z forecast) :
  NoDup (forecasts_of_market mid t).*1.
Proof. apply NoDup_fst_map_to_list. Qed.

(** ** The order of a scan *)

Lemma insert_by_id_Permutation {A} (row : Z * A) (l : list (Z * A)) :
  insert_by_id row l ≡ₚ row :: l.
Proof.
  induction l as [|row' l IH]; [done|]. simpl.
  destruct (row.1 <=? row'.1); [done|]. rewrite IH. apply perm_swap.
Qed.

Lemma by_id_Permutation {A} (l : list (Z * A)) : by_id l ≡ₚ l.
Proof.
  induction l as [|row l IH]; [done|]. simpl.
  by rewrite insert_by_id_Permutation, IH.
Qed.

Lemma elem_of_by_id {A} (l : list (Z * A)) (row : Z * A) :
  row ∈ by_id l ↔ row ∈ l.
Proof. by rewrite by_id_Permutation. Qed.

Lemma length_by_id {A} (l : list (Z * A)) : length (by_id l) = length l.
Proof. by rewrite by_id_Permutation. Qed.

Lemma NoDup_by_id {A} (l : list (Z * A)) : NoDup l.*1 → NoDup (by_id l).*1.
Proof. by rewrite by_id_Permutation. Qed.

Lemma insert_by_id_fmap {A B} (g : A → B) (row : Z * A) (l : list (Z * A)) :
  insert_by_id (prod_map id g row) (prod_map id g <$> l) =
  prod_map id g <$> insert_by_id row l.
Proof.
  induction l as [|row' l IH]; [done|]. rewrite fmap_cons. simpl.
  destruct (row.1 <=? row'.1); [done|]. by rewrite fmap_cons, <- IH.
Qed.

(** The order of a scan does not depend on what the rows hold. *)
Lemma by_id_fmap {A B} (g : A → B) (l : list (Z * A)) :
  by_id (prod_map id g <$> l) = prod_map id g <$> by_id l.
Proof.
  induction l as [|row l IH]; [done|]. rewrite fmap_cons. simpl.
  by rewrite IH, insert_by_id_fmap.
Qed.

Lemma insert_by_id_sorted {A} (row : Z * A) (l : list (Z * A)) :
  StronglySorted (λ a b, a.1 ≤ b.1) l →
  StronglySorted (λ a b, a.1 ≤ b.1) (insert_by_id row l).
Proof.
  induction 1 as [|row' l Hs IH Hall]; simpl.
  - repeat constructor.
  - destruct (row.1 <=? row'.1) eqn:Hle.
    + apply Z.leb_le in Hle. constructor; [by constructor|].
      constructor; [done|]. eapply Forall_impl; [exact Hall|].
      intros r Hr. simpl in *. lia.
    + apply Z.leb_gt in Hle. constructor; [done|].
      rewrite insert_by_id_Permutation. constructor; [lia|done].
Qed.

Lemma by_id_sorted {A} (l : list (Z * A)) :
  StronglySorted (λ a b, a.1 ≤ b.1) (by_id l).
Proof.
  induction l as [|row l IH]; [constructor|]. by apply insert_by_id_sorted.
Qed.

(** ** The loop of [resolve_market] *)

Lemma resolve_loop_forecasts outcome rows (fs : gmap Z forecast) us :
  (foldl (resolve_forecast outcome) (fs, us) rows).1 =
  foldl (λ t row, alter (set_reward (compute_reward outcome (probability row.2)))
                        row.1 t) fs rows.
Proof.
  revert fs us. induction rows as [|row rows IH]; intros fs us; [done|].
  simpl. unfold resolve_forecast at 2. simpl. apply IH.
Qed.

Lemma resolve_loop_users outcome rows (fs : gmap Z forecast) (us : gmap Z user) :
  (foldl (resolve_forecast outcome) (fs, us) rows).2 =
  foldl (λ t row, alter (credit (compute_reward outcome (probability row.2)))
                        (user_id row.2) t) us rows.
Proof.
  revert fs us. induction rows as [|row rows IH]; intros fs us; [done|].
  simpl. unfold resolve_forecast at 2. simpl. apply IH.
Qed.

Lemma rewards_written outcome (rows : list (Z * forecast)) (fs : gmap Z forecast) k :
  NoDup rows.*1 →
  foldl (λ t row, alter (set_reward (compute_reward outcome (probability row.2)))
                        row.1 t) fs rows !! k =
  match (list_to_map rows : gmap Z forecast) !! k with
  | Some f => set_reward (compute_reward outcome (probability f)) <$> fs !! k
  | None => fs !! k
  end.
Proof.
  revert fs. induction rows as [|[k0 f0] rows IH]; intros fs Hnd; [done|].
  simpl in *. apply NoDup_cons in Hnd as [Hk0 Hnd]. rewrite IH by done.
  destruct (decide (k = k0)) as [->|Hne].
  - rewrite lookup_insert_eq.
    rewrite (not_elem_of_list_to_map_1 rows k0) by done.
    by rewrite lookup_alter_eq.
  - rewrite lookup_insert_ne by done. by rewrite lookup_alter_ne.
Qed.

Lemma credit_credit a b u : credit b (credit a u) = credit (a + b) u.
Proof. unfold credit, set_tokens. simpl. f_equal. lia. Qed.

Lemma credit_0 u : credit 0 u = u.
Proof. destruct u. unfold credit, set_tokens. simpl. f_equal. lia. Qed.

Lemma rewards_credited outcome (rows : list (Z * forecast)) (us : gmap Z user) uid :
  foldl (λ t row, alter (credit (compute_reward outcome (probability row.2)))
                        (user_id row.2) t) us rows !! uid =
  credit (rewards_of_user outcome uid rows) <$> us !! uid.
Proof.
  revert us. induction rows as [|[k0 f0] rows IH]; intros us.
  - simpl. destruct (us !! uid) as [u|]; simpl; [|done]. by rewrite credit_0.
  - simpl. rewrite IH. unfold rewards_of_user. rewrite filter_cons. simpl.
    destruct (decide (user_id f0 = uid)) as [<-|Hne].
    + rewrite lookup_alter_eq. destruct (us !! user_id f0) as [u|]; simpl; [|done].
      rewrite credit_credit. done.
    + rewrite lookup_alter_ne by done. done.
Qed.

Lemma resolve_market_spec (mid : Z) (outcome : json) (d : db) :
  mid ≠ 0 → truthy outcome = true →
  ∃ d', resolve_market (ResolveData (Some mid) outcome) d =
          (Response 200 (Message "Market resolved successfully"), d') ∧
        markets d' = alter (set_status "resolved") mid (markets d) ∧
        (∀ k, forecasts d' !! k =
              resolved_forecast outcome mid <$> forecasts d !! k) ∧
        (∀ uid, users d' !! uid =
                credit (rewards_of_user outcome uid
                          (forecasts_of_market mid (forecasts d)))
                  <$> users d !! uid).
Proof.
  intros Hmid Hout. unfold resolve_market. simpl.
  apply Z.eqb_neq in Hmid. rewrite Hmid, Hout. simpl.
  eexists. split; [reflexivity|]. simpl. split; [done|]. split.
  - intros k. rewrite resolve_loop_forecasts.
    rewrite rewards_written by apply NoDup_forecasts_of_market.
    unfold forecasts_of_market. rewrite list_to_map_to_list.
    unfold resolved_forecast.
    destruct (filter _ (forecasts d) !! k) as [f|] eqn:Hf.
    + apply map_lookup_filter_Some in Hf as [Hk Hm]. simpl in Hm.
      rewrite Hk. simpl. by rewrite decide_True.
    + destruct (forecasts d !! k) as [f|] eqn:Hk; [|done]. simpl.
      rewrite decide_False; [done|]. intros Hm.
      assert (filter (λ row : Z * forecast, market_id row.2 = mid) (forecasts d) !! k = Some f) as Hc
        by (by apply map_lookup_filter_Some).
      congruence.
  - intros uid. rewrite resolve_loop_users. apply rewards_credited.
Qed.

Lemma filter_none {A} (P : A → Prop) `{∀ x, Decision (P x)} (l : list A) :
  (∀ x, x ∈ l → ¬ P x) → filter P l = [].
Proof.
  induction l as [|x l IH]; intros Hl; [done|].
  rewrite filter_cons_False by (apply Hl; left).
  apply IH. intros y Hy. apply Hl. by right.
Qed.

Lemma rewards_of_user_none outcome mid uid (t : gmap Z forecast) :
  (∀ k f, t !! k = Some f → market_id f = mid → user_id f ≠ uid) →
  rewards_of_user outcome uid (forecasts_of_market mid t) = 0.
Proof.
  intros H. unfold rewards_of_user.
  rewrite filter_none; [done|]. intros [k f] Hin.
  apply elem_of_forecasts_of_market in Hin as [Hk Hm]. simpl. by eapply H.
Qed.

Lemma rewards_of_user_single outcome mid uid (t : gmap Z forecast) k f :
  t !! k = Some f → market_id f = mid → user_id f = uid →
  (∀ k' f', t !! k' = Some f' → market_id f' = mid → user_id f' = uid → k' = k) →
  rewards_of_user outcome uid (forecasts_of_market mid t) =
  compute_reward outcome (probability f).
Proof.
  intros Hk Hm Hu Huniq. unfold rewards_of_user.
  replace (filter _ (forecasts_of_market mid t)) with [(k, f)];
    [simpl; lia|].
  symmetry. apply Permutation_singleton_r. apply NoDup_Permutation.
  - apply NoDup_filter. apply NoDup_map_to_list.
  - apply NoDup_singleton.
  - intros [k' f']. rewrite list_elem_of_filter, elem_of_forecasts_of_market.
    rewrite list_elem_of_singleton. simpl. split.
    + intros (Hu' & Hk' & Hm'). assert (k' = k) as -> by eauto. congruence.
    + intros [= -> ->]. done.
Qed.

(** ** Case analysis of the handlers *)

Lemma submit_forecast_unauthenticated data d :
  submit_forecast None data d =
  (Response 401 (Error "Authentication required"), d).
Proof. done. Qed.

(** A submission either is refused and leaves the database as it is, or
    passes every check, inserts the forecast and debits its cost. *)
Lemma submit_forecast_cases session data d :
  (∃ r, submit_forecast session data d = (r, d) ∧
        (status_code r = 400 ∨
         status_code r = 401 ∧ session = None ∨
         status_code r = 404 ∧
           (∃ mid, fd_market_id data = Some mid ∧ markets d !! mid = None) ∨
         status_code r = 500 ∧
           (∃ uid, session = Some uid ∧ users d !! uid = None))) ∨
  (∃ uid mid p m u,
     session = Some uid ∧ fd_market_id data = Some mid ∧
     fd_probability data = Some p ∧ mid ≠ 0 ∧
     (0 <= p)%Q ∧ (p <= 100)%Q ∧
     markets d !! mid = Some m ∧ status m = "active" ∧
     users d !! uid = Some u ∧ tokens_cost ≤ tokens u ∧
     submit_forecast session data d =
       (Response 201 (ForecastSubmitted "Forecast submitted successfully"
                        (next_id (forecasts d))),
        Db (alter (λ u, set_tokens (tokens u - tokens_cost) u) uid (users d))
           (markets d)
           (<[next_id (forecasts d) := Forecast uid mid p tokens_cost 0]>
              (forecasts d)))).
Proof.
  destruct session as [uid|];
    [|left; eexists; split; [reflexivity|right; left; done]].
  unfold submit_forecast, login_required.
  destruct (fd_market_id data) as [mid|] eqn:Hmid;
    [|left; eexists; split; [reflexivity|by left]].
  destruct (fd_probability data) as [p|] eqn:Hp;
    [|left; eexists; split; [reflexivity|by left]].
  destruct (mid =? 0) eqn:Hz; [left; eexists; split; [reflexivity|by left]|].
  destruct (Qle_bool 0 p) eqn:H0; [|left; eexists; split; [reflexivity|by left]].
  destruct (Qle_bool p 100) eqn:H1; [|left; eexists; split; [reflexivity|by left]].
  cbn [andb negb].
  destruct (markets d !! mid) as [m|] eqn:Hm.
  2:{ left; eexists; split; [reflexivity|]. right; right; left.
      split; [done|]. by exists mid. }
  destruct (String.eqb (status m) "active") eqn:Hs;
    [|left; eexists; split; [reflexivity|by left]].
  cbn [negb].
  destruct (users d !! uid) as [u|] eqn:Hu.
  2:{ left; eexists; split; [reflexivity|]. right; right; right.
      split; [done|]. by exists uid. }
  destruct (tokens u <? tokens_cost) eqn:Ht;
    [left; eexists; split; [reflexivity|by left]|].
  right. exists uid, mid, p, m, u.
  apply Z.eqb_neq in Hz. apply Qle_bool_iff in H0, H1.
  apply String.eqb_eq in Hs. apply Z.ltb_ge in Ht.
  repeat split; done.
Qed.


(** A resolution either is refused for a missing field and leaves the
    database as it is, or runs the batch update. *)
Lemma resolve_market_cases data d :
  resolve_market data d =
    (Response 400 (Error "Market ID and outcome required"), d) ∨
  (∃ mid, rd_market_id data = Some mid ∧ mid ≠ 0 ∧
          truthy (rd_outcome data) = true).
Proof.
  unfold resolve_market. destruct (rd_market_id data) as [mid|]; [|by left].
  destruct (mid =? 0) eqn:Hz; [by left|].
  destruct (truthy (rd_outcome data)) eqn:Ht; [|by left].
  right. exists mid. apply Z.eqb_neq in Hz. done.
Qed.

Lemma signup_cases hash data d :
  (signup hash data d).2 = d ∨
  ∃ name mail,
    (signup hash data d).2 =
    Db (<[next_id (users d) := User name mail hash 1000]> (users d))
       (markets d) (forecasts d).
Proof.
  unfold signup.
  destruct (sd_username data) as [name|]; [|by left].
  destruct (sd_email data) as [mail|]; [|by left].
  destruct (sd_password data) as [password|]; [|by left].
  destruct (_ || _); [by left|].
  destruct (decide _); [by left|]. right. by exists name, mail.
Qed.

(** ** Row updates that keep the forecasts as they were stated *)

Lemma filter_fmap_list {A B} (P : B → Prop) `{∀ x, Decision (P x)}
    (g : A → B) (l : list A) :
  filter P (g <$> l) = g <$> filter (λ x, P (g x)) l.
Proof.
  induction l as [|x l IH]; [done|].
  rewrite fmap_cons, !filter_cons. rewrite IH.
  destruct (decide (P (g x))); done.
Qed.

Lemma foldl_ext_in {A B} (f g : A → B → A) (a : A) (l : list B) :
  (∀ a x, f a x = g a x) → foldl f a l = foldl g a l.
Proof.
  intros E. revert a. induction l as [|x l IH]; intros a; [done|].
  simpl. by rewrite E, IH.
Qed.

Lemma StronglySorted_filter {A} (R : relation A) (P : A → Prop)
    `{∀ x, Decision (P x)} (l : list A) :
  StronglySorted R l → StronglySorted R (filter P l).
Proof.
  induction 1 as [|x l Hs IH Hall]; [constructor|].
  rewrite filter_cons. destruct (decide (P x)); [|done].
  constructor; [done|]. apply Forall_forall.
  intros y [_ Hy]%list_elem_of_filter. rewrite Forall_forall in Hall.
  by apply Hall.
Qed.

(** A row update that keeps the user, the market and the probability of
    every forecast does not change which rows a market selects. *)
Lemma forecasts_of_market_fmap (g : forecast → forecast) mid
    (t : gmap Z forecast) :
  (∀ f, market_id (g f) = market_id f) →
  forecasts_of_market mid (g <$> t) =
  prod_map id g <$> forecasts_of_market mid t.
Proof.
  intros Hg. unfold forecasts_of_market.
  rewrite map_filter_fmap, map_to_list_fmap. do 2 f_equal.
  apply map_filter_ext. intros k f _. simpl. by rewrite Hg.
Qed.

Lemma resolved_forecast_fields outcome mid f :
  user_id (resolved_forecast outcome mid f) = user_id f ∧
  market_id (resolved_forecast outcome mid f) = market_id f ∧
  probability (resolved_forecast outcome mid f) = probability f.
Proof. unfold resolved_forecast. by case_decide. Qed.

Lemma resolve_market_forecasts data d :
  ∃ g, forecasts (resolve_market data d).2 = g <$> forecasts d ∧
       ∀ f, user_id (g f) = user_id f ∧ market_id (g f) = market_id f ∧
            probability (g f) = probability f.
Proof.
  destruct (resolve_market_cases data d) as [->|(mid & Hmid & Hnz & Ht)].
  - exists id. split; [by rewrite map_fmap_id|done].
  - destruct data as [mid' outcome]. simpl in *. subst mid'.
    destruct (resolve_market_spec mid outcome d Hnz Ht) as (d1 & -> & _ & Hf & _).
    exists (resolved_forecast outcome mid). split.
    + apply map_eq. intros k. by rewrite Hf, lookup_fmap.
    + apply resolved_forecast_fields.
Qed.

Lemma rewards_of_user_fmap (g : forecast → forecast) outcome uid mid
    (t : gmap Z forecast) :
  (∀ f, user_id (g f) = user_id f ∧ market_id (g f) = market_id f ∧
        probability (g f) = probability f) →
  rewards_of_user outcome uid (forecasts_of_market mid (g <$> t)) =
  rewards_of_user outcome uid (forecasts_of_market mid t).
Proof.
  intros Hg. rewrite forecasts_of_market_fmap by (intros f; apply Hg).
  unfold rewards_of_user. rewrite filter_fmap_list, <- list_fmap_compose.
  rewrite (list_filter_iff _ (λ row : Z * forecast, user_id row.2 = uid)).
  2:{ intros [k f]. simpl. by destruct (Hg f) as (-> & _). }
  f_equal. apply list_fmap_ext. intros i [k f] _. simpl.
  by destruct (Hg f) as (_ & _ & ->).
Qed.

(** ** The invariant of reachable databases *)

Lemma rewards_of_user_nonneg outcome mid uid (t : gmap Z forecast) :
  (∀ k f, t !! k = Some f → (0 <= probability f)%Q ∧ (probability f <= 100)%Q) →
  0 ≤ rewards_of_user outcome uid (forecasts_of_market mid t).
Proof.
  intros Hr. unfold rewards_of_user.
  assert (Hall : ∀ row, row ∈ filter (λ row : Z * forecast, user_id row.2 = uid)
                          (forecasts_of_market mid t) →
                        0 ≤ compute_reward outcome (probability row.2)).
  { intros [k f] [_ Hin]%list_elem_of_filter.
    apply elem_of_forecasts_of_market in Hin as [Hk _].
    destruct (Hr k f Hk). simpl. by apply compute_reward_bounds. }
  induction (filter _ _) as [|row rows IH]; [done|].
  rewrite fmap_cons. cbn [foldr].
  assert (0 ≤ compute_reward outcome (probability row.2)) by (apply Hall; left).
  assert (0 ≤ foldr Z.add 0 ((λ row, compute_reward outcome (probability row.2)) <$> rows)).
  { apply IH. intros. apply Hall. by right. }
  lia.
Qed.

Lemma consistent_start d : users d = ∅ → forecasts d = ∅ → consistent d.
Proof.
  intros Hu Hf. split.
  - intros k f. by rewrite Hf, lookup_empty.
  - intros k f. by rewrite Hf, lookup_empty.
  - intros uid u. by rewrite Hu, lookup_empty.
Qed.

Lemma consistent_init_db d : consistent d → consistent (init_db d).
Proof.
  intros [Hr Hm Hu]. unfold init_db. destruct (decide _) as [Hsz|]; [|done].
  apply map_size_empty_iff in Hsz. split; simpl; [done| |done].
  intros k f Hk. destruct (Hm k f Hk) as (m & Hl & _).
  by rewrite Hsz, lookup_empty in Hl.
Qed.

Lemma consistent_signup hash data d :
  consistent d → consistent (signup hash data d).2.
Proof.
  intros [Hr Hm Hu]. destruct (signup_cases hash data d) as [->|(n & e & ->)];
    [done|].
  split; simpl; [done|done|].
  intros uid u. rewrite lookup_insert. case_decide; [|by apply Hu].
  intros [= <-]. simpl. lia.
Qed.

Lemma consistent_submit_forecast session data d :
  consistent d → consistent (submit_forecast session data d).2.
Proof.
  intros [Hr Hm Hu].
  destruct (submit_forecast_cases session data d)
    as [(r & -> & _)|(uid & mid & p & m & u & _ & _ & _ & _ & H0 & H1 & Hmk & Hs & Hus & Ht & ->)];
    [done|].
  split; simpl.
  - intros k f. rewrite lookup_insert. case_decide; [|by apply Hr].
    by intros [= <-].
  - intros k f. rewrite lookup_insert. case_decide; [|by apply Hm].
    intros [= <-]. simpl. by exists m.
  - intros uid' u'. rewrite lookup_alter. case_decide; [|by apply Hu].
    subst uid'. rewrite Hus. intros [= <-]. simpl. lia.
Qed.

Lemma consistent_resolve_market data d :
  consistent d → consistent (resolve_market data d).2.
Proof.
  intros [Hr Hm Hu].
  destruct (resolve_market_cases data d) as [->|(mid & Hmid & Hnz & Ht)]; [done|].
  destruct data as [mid' outcome]. simpl in *. subst mid'.
  destruct (resolve_market_spec mid outcome d Hnz Ht) as (d' & -> & Hms & Hfs & Hus).
  simpl. split.
  - intros k f. rewrite Hfs. destruct (forecasts d !! k) as [f0|] eqn:Hk; [|done].
    intros [= <-]. unfold resolved_forecast. case_decide; simpl; by eapply Hr.
  - intros k f. rewrite Hfs. destruct (forecasts d !! k) as [f0|] eqn:Hk; [|done].
    intros [= <-]. destruct (Hm k f0 Hk) as (m & Hl & Hz).
    rewrite Hms. unfold resolved_forecast. case_decide as Hc; simpl.
    + rewrite Hc, lookup_alter_eq, <- Hc, Hl. simpl.
      eexists. split; [done|]. simpl. done.
    + rewrite lookup_alter_ne by done. by exists m.
  - intros uid u. rewrite Hus. destruct (users d !! uid) as [u0|] eqn:Hl; [|done].
    intros [= <-]. simpl.
    pose proof (Hu uid u0 Hl).
    pose proof (rewards_of_user_nonneg outcome mid uid (forecasts d) Hr). lia.
Qed.

Lemma consistent_step d d' : step d d' → consistent d → consistent d'.
Proof.
  destruct 1; eauto using consistent_init_db, consistent_signup,
    consistent_submit_forecast, consistent_resolve_market.
Qed.

Lemma reachable_consistent d : reachable d → consistent d.
Proof.
  induction 1; eauto using consistent_start, consistent_step.
Qed.

(** ** The sample databases are reachable *)

Lemma reachable_db_signed_up : reachable db_signed_up.
Proof.
  eapply reachable_step; [|apply step_signup].
  eapply reachable_step; [|apply step_init_db].
  by apply reachable_start.
Qed.

Lemma reachable_db_one_forecast : reachable db_one_forecast.
Proof.
  eapply reachable_step; [apply reachable_db_signed_up|].
  apply step_submit_forecast.
Qed.

Lemma reachable_resubmit (n : nat) session data (d : db) :
  reachable d →
  reachable (Nat.iter n (λ d, (submit_forecast session data d).2) d).
Proof.
  intros Hd. induction n as [|n IH]; simpl; [done|].
  eapply reachable_step; [apply IH|apply step_submit_forecast].
Qed.

Lemma reachable_db_poor_user : reachable db_poor_user.
Proof. apply reachable_resubmit, reachable_db_signed_up. Qed.

Lemma reachable_db_resolved : reachable db_resolved.
Proof.
  eapply reachable_step; [apply reachable_db_one_forecast|].
  apply step_resolve_market.
Qed.

Lemma reachable_db_two_forecasts : reachable db_two_forecasts.
Proof.
  eapply reachable_step; [apply reachable_db_one_forecast|].
  apply step_submit_forecast.
Qed.

Lemma reachable_db_fractional : reachable db_fractional.
Proof.
  eapply reachable_step; [apply reachable_db_signed_up|].
  apply step_submit_forecast.
Qed.

Lemma reachable_db_fractional_pair : reachable db_fractional_pair.
Proof.
  eapply reachable_step; [apply reachable_db_fractional|].
  apply step_submit_forecast.
Qed.

Lemma reachable_db_fractional_resolved : reachable db_fractional_resolved.
Proof.
  eapply reachable_step; [apply reachable_db_fractional_pair|].
  apply step_resolve_market.
Qed.

(** ** Resolution and rewards *)

(** C1, as stated, fails: the difference 100 - probability is a float
    subtraction.  For the accepted probability 14.000000000000002 it gives
    86.0, so that under 'no' the reward is 43, while
    floor((100 - probability) * 0.5) is 42. *)
Lemma resolve_market_reward_rounded :
  reachable db_fractional ∧
  forecasts db_fractional !! 1 =
    Some (Forecast 1 1 probability_fractional 10 0) ∧
  reward <$> forecasts (resolve_market (ResolveData (Some 1) (JStr "no"))
                          db_fractional).2 !! 1 = Some 43 ∧
  Qfloor ((100 - probability_fractional) * (1 # 2)) = 42.
Proof. split; [apply reachable_db_fractional|by vm_compute]. Qed.

(** C1, amended: in every reachable database, resolving a market gives each
    of its forecasts, the probability being a double, the reward
    floor(accuracy * 0.5), where accuracy is the probability under outcome
    'yes' and otherwise (so also under 'no') a double nearest to
    100 - probability; the reward lies between 0 and 50, and it is the
    reward of the exact formula or one more; a forecast of 80 gets 40 under
    'yes' and 10 under 'no'. *)
Theorem resolve_market_reward (d : db) (mid : Z) (outcome : json) :
  reachable d → mid ≠ 0 → truthy outcome = true →
  let d' := (resolve_market (ResolveData (Some mid) outcome) d).2 in
  (∀ k f, forecasts d !! k = Some f → market_id f = mid →
     is_double (probability f) →
     ∃ f' accuracy,
       forecasts d' !! k = Some f' ∧
       (is_yes outcome = true → accuracy = probability f) ∧
       (is_yes outcome = false →
        nearest_double (100 - probability f) accuracy) ∧
       reward f' = Qfloor (accuracy * (1 # 2)) ∧
       0 ≤ reward f' ≤ 50 ∧
       (let exact :=
          if is_yes outcome then probability f else (100 - probability f)%Q in
        Qfloor (exact * (1 # 2)) ≤ reward f' ≤ Qfloor (exact * (1 # 2)) + 1) ∧
       ((probability f == 80)%Q → outcome = JStr "yes" → reward f' = 40) ∧
       ((probability f == 80)%Q → outcome = JStr "no" → reward f' = 10)) ∧
  (∀ p, (0 <= p)%Q → (p <= 100)%Q → 0 ≤ compute_reward outcome p ≤ 50).
Proof.
  intros Hreach Hmid Hout d'. split; [|intros p; apply compute_reward_bounds].
  intros k f Hk Hm Hd.
  destruct (resolve_market_spec mid outcome d Hmid Hout)
    as (d1 & Heq & _ & Hfs & _).
  subst d'. rewrite Heq. cbn [snd]. rewrite Hfs, Hk.
  cbn [fmap option_fmap option_map].
  unfold resolved_forecast. rewrite decide_True by done.
  destruct (forecast_range d (reachable_consistent d Hreach) k f Hk) as [H0 H1].
  pose proof (compute_reward_floor outcome (probability f) H0 H1 (λ _, Hd))
    as Hfl.
  pose proof (compute_reward_bounds outcome (probability f) H0 H1) as Hb.
  eexists _, (if is_yes outcome then probability f
              else fl_sub 100 (probability f)).
  split; [reflexivity|]. cbn [reward set_reward].
  split; [by intros ->|].
  split; [intros ->; apply to_double_nearest_double|].
  split; [done|]. split; [done|]. rewrite Hfl. split; [|split].
  - destruct (is_yes outcome); [lia|]. apply Qfloor_half_double; lra.
  - intros Hp ->. change (is_yes (JStr "yes")) with true. cbv iota.
    rewrite (Qfloor_comp _ (80 * (1 # 2))%Q); [done|]. by rewrite Hp.
  - intros Hp ->. change (is_yes (JStr "no")) with false. cbv iota.
    unfold fl_sub. rewrite (to_double_comp _ 20) by (by rewrite Hp).
    by vm_compute.
Qed.

Lemma resolve_market_reward_witness :
  ∃ f', forecasts (resolve_market (ResolveData (Some 1) (JStr "yes"))
                     db_one_forecast).2 !! 1 = Some f' ∧
        reward f' = 40.
Proof.
  destruct (resolve_market_reward db_one_forecast 1 (JStr "yes")
              reachable_db_one_forecast) as [H _]; [lia|reflexivity|].
  destruct (H 1 (Forecast 1 1 80%Q 10 0))
    as (f' & a & Hf & _ & _ & _ & _ & _ & H40 & _);
    [reflexivity|reflexivity|apply (is_double_Z 80); lia|].
  exists f'. split; [exact Hf|]. apply H40; reflexivity.
Defined.

(** C3: one call of the resolution operation with a market id and an outcome
    sets the status of that market to 'resolved', sets the reward of every
    forecast against it to the computed reward and adds to the balance of
    each forecaster the rewards of their forecasts against it; nothing else
    of these rows changes, and every other market, forecast and balance is
    left as it was. *)
Theorem resolve_market_effects (d : db) (mid : Z) (outcome : json) :
  mid ≠ 0 → truthy outcome = true →
  let result := resolve_market (ResolveData (Some mid) outcome) d in
  let d' := result.2 in
  let paid uid :=
    rewards_of_user outcome uid (forecasts_of_market mid (forecasts d)) in
  result.1 = Response 200 (Message "Market resolved successfully") ∧
  (∀ m, markets d !! mid = Some m →
     ∃ m', markets d' !! mid = Some m' ∧ status m' = "resolved" ∧
           question m' = question m ∧ description m' = description m ∧
           category m' = category m ∧
           resolution_date m' = resolution_date m) ∧
  (∀ k f, forecasts d !! k = Some f → market_id f = mid →
     ∃ f', forecasts d' !! k = Some f' ∧
           reward f' = compute_reward outcome (probability f) ∧
           user_id f' = user_id f ∧ market_id f' = mid ∧
           probability f' = probability f ∧
           tokens_spent f' = tokens_spent f) ∧
  (∀ uid u, users d !! uid = Some u →
     ∃ u', users d' !! uid = Some u' ∧ tokens u' = tokens u + paid uid ∧
           username u' = username u ∧ email u' = email u ∧
           password_hash u' = password_hash u) ∧
  (∀ uid k f, forecasts d !! k = Some f → market_id f = mid →
              user_id f = uid →
              (∀ k' f', forecasts d !! k' = Some f' → market_id f' = mid →
                        user_id f' = uid → k' = k) →
              paid uid = compute_reward outcome (probability f)) ∧
  (∀ k, k ≠ mid → markets d' !! k = markets d !! k) ∧
  (markets d !! mid = None → markets d' !! mid = None) ∧
  (∀ k f, forecasts d !! k = Some f → market_id f ≠ mid →
          forecasts d' !! k = Some f) ∧
  (∀ k, forecasts d !! k = None → forecasts d' !! k = None) ∧
  (∀ uid, (∀ k f, forecasts d !! k = Some f → market_id f = mid →
                  user_id f ≠ uid) →
          users d' !! uid = users d !! uid) ∧
  (∀ uid, users d !! uid = None → users d' !! uid = None).
Proof.
  intros Hmid Hout result d' paid.
  destruct (resolve_market_spec mid outcome d Hmid Hout)
    as (d1 & Heq & Hms & Hfs & Hus).
  subst result d'. rewrite Heq. cbn [fst snd]. split; [done|].
  split; [|split; [|split; [|repeat split]]].
  - intros m Hm. rewrite Hms, lookup_alter_eq, Hm.
    eexists. split; [reflexivity|]. done.
  - intros k f Hk Hm. rewrite Hfs, Hk. cbn [fmap option_fmap option_map].
    unfold resolved_forecast. rewrite decide_True by done.
    eexists. split; [reflexivity|]. done.
  - intros uid u Hu. rewrite Hus, Hu.
    eexists. split; [reflexivity|]. done.
  - intros uid k f Hk Hm Hu Huniq. by eapply rewards_of_user_single.
  - intros k Hk. by rewrite Hms, lookup_alter_ne.
  - intros Hm. by rewrite Hms, lookup_alter_eq, Hm.
  - intros k f Hk Hm. rewrite Hfs, Hk. simpl. unfold resolved_forecast.
    by rewrite decide_False.
  - intros k Hk. by rewrite Hfs, Hk.
  - intros uid Hno. rewrite Hus. subst paid.
    rewrite (rewards_of_user_none outcome mid uid (forecasts d) Hno).
    destruct (users d !! uid) as [u|]; [|done]. simpl. by rewrite credit_0.
  - intros uid Hu. by rewrite Hus, Hu.
Qed.

Lemma resolve_market_effects_witness :
  ∃ m' f' u',
    markets db_resolved !! 1 = Some m' ∧ status m' = "resolved" ∧
    forecasts db_resolved !! 1 = Some f' ∧ reward f' = 40 ∧
    users db_resolved !! 1 = Some u' ∧ tokens u' = 1030.
Proof.
  destruct (resolve_market_effects db_one_forecast 1 (JStr "yes"))
    as (_ & Hm & Hf & Hu & _); [lia|reflexivity|].
  destruct (Hm (Market "Will Ireland qualify for FIFA 2026?"
      "This market resolves YES if Ireland's national football team qualifies for the 2026 FIFA World Cup by the end of qualifying rounds."
      "Sports" "2026-06-30" "active")) as (m' & Hm' & Hs & _); [reflexivity|].
  destruct (Hf 1 (Forecast 1 1 80%Q 10 0)) as (f' & Hf' & Hr & _);
    [reflexivity|reflexivity|].
  destruct (Hu 1 (User "aoife" "aoife@example.org" "pbkdf2" 990))
    as (u' & Hu' & Ht & _); [reflexivity|].
  exists m', f', u'.
  split; [exact Hm'|]. split; [exact Hs|]. split; [exact Hf'|].
  split; [rewrite Hr; by vm_compute|]. split; [exact Hu'|].
  rewrite Ht. by vm_compute.
Defined.

(** C10: a resolution whose outcome is any truthy value other than the
    string 'yes' does exactly what it does for 'no'; in every reachable
    database each forecast of the market is then rewarded on an accuracy
    that is a double nearest to 100 - probability, so that a forecast of 80
    gets 10. *)
Theorem resolve_market_not_yes (d : db) (mid : Z) (outcome : json) :
  truthy outcome = true → outcome ≠ JStr "yes" →
  resolve_market (ResolveData (Some mid) outcome) d =
    resolve_market (ResolveData (Some mid) (JStr "no")) d ∧
  (reachable d → mid ≠ 0 →
   ∀ k f, forecasts d !! k = Some f → market_id f = mid →
     ∃ f' accuracy,
       forecasts (resolve_market (ResolveData (Some mid) outcome) d).2 !! k
         = Some f' ∧
       nearest_double (100 - probability f) accuracy ∧
       reward f' = Qfloor (accuracy * (1 # 2)) ∧
       ((probability f == 80)%Q → reward f' = 10)).
Proof.
  intros Hout Hne.
  assert (Hyes : is_yes outcome = false).
  { destruct outcome as [| | |s| |]; try done. simpl.
    apply String.eqb_neq. congruence. }
  assert (Hstep : ∀ rows t,
    foldl (resolve_forecast outcome) t rows =
    foldl (resolve_forecast (JStr "no")) t rows).
  { induction rows as [|row rows IH]; intros t; [done|]. simpl.
    rewrite IH. unfold resolve_forecast, compute_reward. by rewrite Hyes. }
  split.
  - unfold resolve_market. simpl. rewrite Hout, Hstep. done.
  - intros Hreach Hmid k f Hk Hm.
    destruct (resolve_market_spec mid outcome d Hmid Hout)
      as (d1 & Heq & _ & Hfs & _).
    rewrite Heq. cbn [snd]. rewrite Hfs, Hk.
    cbn [fmap option_fmap option_map].
    unfold resolved_forecast. rewrite decide_True by done.
    destruct (forecast_range d (reachable_consistent d Hreach) k f Hk)
      as [H0 H1].
    pose proof (compute_reward_floor outcome (probability f) H0 H1) as Hfl.
    rewrite Hyes in Hfl. specialize (Hfl ltac:(done)).
    eexists _, (fl_sub 100 (probability f)).
    split; [reflexivity|]. cbn [reward set_reward].
    split; [apply to_double_nearest_double|]. split; [done|].
    intros Hp. rewrite Hfl. unfold fl_sub.
    rewrite (to_double_comp _ 20) by (by rewrite Hp). by vm_compute.
Qed.

Lemma resolve_market_not_yes_witness :
  ∃ f', forecasts (resolve_market (ResolveData (Some 1) (JStr "YES"))
                     db_one_forecast).2 !! 1 = Some f' ∧
        reward f' = 10.
Proof.
  destruct (resolve_market_not_yes db_one_forecast 1 (JStr "YES")) as [_ H];
    [reflexivity|discriminate|].
  destruct (H reachable_db_one_forecast ltac:(lia) 1 (Forecast 1 1 80%Q 10 0))
    as (f' & a & Hf & _ & _ & H10); [reflexivity|reflexivity|].
  exists f'. split; [exact Hf|]. apply H10. reflexivity.
Defined.

(** ** Aggregates *)

(** The accumulator of [AVG] is a sum in double precision. *)
Lemma foldl_double_sum (ps : list Q) : double_sum ps (foldl fl_add 0%Q ps).
Proof.
  induction ps as [|p ps IH] using rev_ind; [constructor|].
  rewrite foldl_app. cbn [foldl]. econstructor; [exact IH|].
  apply to_double_nearest_double.
Qed.

Lemma sqlite_avg_singleton (p : Q) : (sqlite_avg [p] == to_double p)%Q.
Proof.
  unfold sqlite_avg, fl_div, fl_add. cbn [foldl length].
  rewrite (to_double_comp (0 + p) p) by lra.
  rewrite (to_double_comp (to_double p / _) (to_double p))
    by (change (inject_Z (Z.of_nat 1)) with 1%Q; field).
  apply to_double_fix, to_double_is_double.
Qed.




(** ** The accuracy estimate *)

Lemma scan_fmap {A B} (g : A → B) (t : gmap Z A) :
  by_id (map_to_list (g <$> t)) = prod_map id g <$> by_id (map_to_list t).
Proof. by rewrite map_to_list_fmap, by_id_fmap. Qed.

Lemma resolved_forecasts_of_user_rows (uid : Z) (d : db) :
  resolved_forecasts_of_user uid d = (resolved_rows_of_user uid d).*2.
Proof.
  unfold resolved_forecasts_of_user, resolved_rows_of_user.
  by rewrite filter_fmap_list.
Qed.

Lemma NoDup_resolved_rows_of_user (uid : Z) (d : db) :
  NoDup (resolved_rows_of_user uid d).*1.
Proof.
  eapply sublist_NoDup;
    [apply (NoDup_by_id (map_to_list (forecasts d))),
       NoDup_fst_map_to_list|].
  apply fmap_sublist, sublist_filter; apply _.
Qed.

(** The accuracy only reads the user, market and probability of the
    forecast rows, and the status of the markets. *)
Lemma calculate_user_accuracy_ext (uid : Z) (d1 d2 : db) (g : forecast → forecast) :
  markets d2 = markets d1 → forecasts d2 = g <$> forecasts d1 →
  (∀ f, user_id (g f) = user_id f ∧ market_id (g f) = market_id f ∧
        probability (g f) = probability f) →
  calculate_user_accuracy uid d2 = calculate_user_accuracy uid d1.
Proof.
  intros Hm Hf Hg.
  assert (Hfs : resolved_forecasts_of_user uid d2 =
                g <$> resolved_forecasts_of_user uid d1).
  { unfold resolved_forecasts_of_user. rewrite Hm, Hf, scan_fmap.
    rewrite <- list_fmap_compose.
    rewrite (list_fmap_ext (snd ∘ prod_map id g) (g ∘ snd)
               (by_id (map_to_list (forecasts d1))))
      by (by intros ? [? ?]).
    rewrite list_fmap_compose, filter_fmap_list. f_equal.
    apply list_filter_iff. intros f. destruct (Hg f) as (-> & -> & _). done. }
  unfold calculate_user_accuracy. rewrite Hfs.
  destruct (resolved_forecasts_of_user uid d1) as [|f fs]; [done|].
  rewrite fmap_cons. rewrite <- fmap_cons.
  rewrite foldl_fmap, length_fmap.
  rewrite (foldl_ext_in _
             (λ acc f, fl_add acc (py_abs (fl_sub 100 (probability f)))));
    [done|].
  intros a x. destruct (Hg x) as (_ & _ & ->). done.
Qed.

(** The loop of [calculate_user_accuracy] takes the average, in double
    precision, of the contributions of the forecasts. *)
Lemma calculate_user_accuracy_value (uid : Z) (d : db) :
  resolved_forecasts_of_user uid d ≠ [] →
  calculate_user_accuracy uid d =
  py_round (fl_sub 100
              (sqlite_avg ((λ f, py_abs (fl_sub 100 (probability f))) <$>
                             resolved_forecasts_of_user uid d))).
Proof.
  intros Hne. unfold calculate_user_accuracy.
  destruct (resolved_forecasts_of_user uid d) as [|f fs]; [done|].
  unfold sqlite_avg. by rewrite foldl_fmap, length_fmap.
Qed.

Lemma Forall_fmap_impl {A B} (P : A → Prop) (Q : B → Prop) (g : A → B)
    (l : list A) :
  (∀ a, P a → Q (g a)) → Forall P l → Forall Q (g <$> l).
Proof.
  intros H Hall. apply Forall_fmap. eapply Forall_impl; [exact Hall|done].
Qed.

Lemma mean_close {A} (g h : A → Q) (eps : Q) (l : list A) :
  l ≠ [] → Forall (λ a, (Qabs (g a - h a) <= eps)%Q) l →
  (Qabs (mean (g <$> l) - mean (h <$> l)) <= eps)%Q.
Proof.
  intros Hne Hall. pose proof (Qsum_close g h eps l Hall) as Hs.
  pose proof (length_pos_Q l Hne) as Hn.
  unfold mean. rewrite !length_fmap.
  set (n := inject_Z (Z.of_nat (length l))) in *.
  set (a := Qsum (g <$> l)) in *. set (b := Qsum (h <$> l)) in *.
  assert (E : (a / n - b / n == (a - b) * / n)%Q) by (field; lra).
  assert (Hinv : (0 < / n)%Q) by (apply Qinv_lt_0_compat; lra).
  apply Qabs_Qle_condition in Hs. rewrite E. apply Qabs_upper.
  - assert ((- (n * eps)) * / n <= (a - b) * / n)%Q
      by (apply Qmult_le_compat_r; lra).
    assert (((- (n * eps)) * / n == - eps)%Q) by (field; lra).
    lra.
  - assert ((a - b) * / n <= (n * eps) * / n)%Q
      by (apply Qmult_le_compat_r; lra).
    assert (((n * eps) * / n == eps)%Q) by (field; lra).
    lra.
Qed.

Lemma mean_ext {A} (g h : A → Q) (l : list A) :
  Forall (λ x, (g x == h x)%Q) l → (mean (g <$> l) == mean (h <$> l))%Q.
Proof.
  intros Hall. unfold mean. by rewrite !length_fmap, (Qsum_ext g h l Hall).
Qed.

Lemma whole_comp (x y : Q) : (x == y)%Q → whole x → whole y.
Proof.
  intros E Hx. apply whole_iff. exists (Qfloor x). rewrite <- E. exact Hx.
Qed.

(** For whole percentages between 0 and 100 the accuracy is the exact
    value 100 - mean(abs(100 - p)), rounded. *)
Lemma calculate_user_accuracy_whole (uid : Z) (d : db) :
  let fs := resolved_forecasts_of_user uid d in
  fs ≠ [] →
  Forall (λ f, whole (probability f) ∧
               (0 <= probability f)%Q ∧ (probability f <= 100)%Q) fs →
  Z.of_nat (length fs) < 2 ^ 45 →
  calculate_user_accuracy uid d =
  py_round (100 - mean ((λ f, Qabs (100 - probability f)) <$> fs)).
Proof.
  intros fs Hne Hall Hlen.
  rewrite calculate_user_accuracy_value by done. fold fs.
  set (c := λ f, py_abs (fl_sub 100 (probability f))).
  set (e := λ f : forecast, Qabs (100 - probability f)).
  assert (Hce : Forall (λ f, (c f == e f)%Q) fs).
  { eapply Forall_impl; [exact Hall|]. intros f (Hw & H0 & H1).
    by apply contribution_whole. }
  rewrite accuracy_value_whole.
  - apply py_round_comp. by rewrite (mean_ext c e fs Hce).
  - by destruct fs.
  - eapply Forall_fmap_impl; [|exact Hall]. intros f (Hw & H0 & H1).
    destruct (contribution_whole _ Hw H0 H1) as [Ec Hwe].
    split; [apply (whole_comp (Qabs (100 - probability f))); [by symmetry|done]|].
    by apply contribution_range.
  - by rewrite length_fmap.
Qed.

Lemma contributions_spec (fs : list forecast) :
  Forall2 (λ f c, ∃ a, nearest_double (100 - probability f) a ∧ c = Qabs a)
    fs ((λ f, py_abs (fl_sub 100 (probability f))) <$> fs).
Proof.
  induction fs as [|f fs IH]; [constructor|].
  rewrite fmap_cons. constructor; [|done].
  eexists. split; [apply to_double_nearest_double|done].
Qed.

(** C8, as stated, fails: the differences, the sum and the quotient are
    float operations.  For resolved forecasts of 14.000000000000002 and 15
    the computation gives 14, while 100 minus the mean of
    abs(100 - probability) lies above 14.5 and has 15 as its nearest whole
    number. *)
Lemma user_accuracy_not_nearest :
  reachable db_fractional_resolved ∧
  probability <$> resolved_forecasts_of_user 1 db_fractional_resolved =
    [probability_fractional; 15%Q] ∧
  calculate_user_accuracy 1 db_fractional_resolved = 14 ∧
  let exact :=
    (100 - mean ((λ p, Qabs (100 - p)) <$> [probability_fractional; 15]))%Q in
  (Qabs (exact - 15) < Qabs (exact - 14))%Q.
Proof. split; [apply reachable_db_fractional_resolved|by vm_compute]. Qed.

(** C8, amended: the accuracy of a user is computed, in double precision,
    from the forecasts of that user on resolved markets, taken in the order
    of their ids: the contribution of a forecast is the absolute value of a
    double nearest to 100 - probability, the contributions are added one at
    a time and the sum is divided by their number, the quotient is
    subtracted from 100, each result being replaced by a nearest double, and
    the difference is rounded to a nearest whole number.  It does not depend
    on the outcome the markets were resolved with.  When the probabilities
    are whole numbers between 0 and 100, fewer than 2^45 of them, it is a
    whole number nearest to 100 minus the mean of abs(100 - probability);
    for up to 2^20 probabilities between 0 and 100 it is within
    1/2 + 2^-26 of that value. *)
Theorem user_accuracy_placeholder (uid : Z) (d : db) :
  let fs := resolved_forecasts_of_user uid d in
  let exact := (100 - mean ((λ f, Qabs (100 - probability f)) <$> fs))%Q in
  let accuracy := calculate_user_accuracy uid d in
  (∃ rows : list (Z * forecast),
     fs = rows.*2 ∧ NoDup rows.*1 ∧
     StronglySorted (λ a b, a.1 ≤ b.1) rows ∧
     ∀ k f, (k, f) ∈ rows ↔
            forecasts d !! k = Some f ∧ user_id f = uid ∧
            ∃ m, markets d !! market_id f = Some m ∧ status m = "resolved") ∧
  (fs ≠ [] →
   ∃ cs total q x,
     Forall2 (λ f c, ∃ a, nearest_double (100 - probability f) a ∧
                          c = Qabs a) fs cs ∧
     double_sum cs total ∧
     nearest_double (total / inject_Z (Z.of_nat (length fs))) q ∧
     nearest_double (100 - q) x ∧
     ∀ z : Z, (Qabs (x - inject_Z accuracy) <= Qabs (x - inject_Z z))%Q) ∧
  (fs ≠ [] →
   Forall (λ f, whole (probability f) ∧
                (0 <= probability f)%Q ∧ (probability f <= 100)%Q) fs →
   Z.of_nat (length fs) < 2 ^ 45 →
   ∀ z : Z, (Qabs (exact - inject_Z accuracy) <=
             Qabs (exact - inject_Z z))%Q) ∧
  (fs ≠ [] →
   Forall (λ f, (0 <= probability f)%Q ∧ (probability f <= 100)%Q) fs →
   Z.of_nat (length fs) ≤ 2 ^ 20 →
   (Qabs (exact - inject_Z accuracy) <= (1 # 2) + (1 # 2 ^ 26))%Q) ∧
  (∀ mid outcome1 outcome2,
     truthy outcome1 = true → truthy outcome2 = true →
     calculate_user_accuracy uid
       (resolve_market (ResolveData mid outcome1) d).2 =
     calculate_user_accuracy uid
       (resolve_market (ResolveData mid outcome2) d).2).
Proof.
  intros fs exact accuracy. split; [|split; [|split; [|split]]].
  - exists (resolved_rows_of_user uid d).
    split; [apply resolved_forecasts_of_user_rows|].
    split; [apply NoDup_resolved_rows_of_user|]. split.
    { apply StronglySorted_filter, by_id_sorted. }
    intros k f. unfold resolved_rows_of_user.
    rewrite list_elem_of_filter, elem_of_by_id, elem_of_map_to_list. simpl.
    split.
    + intros ((Hu & Hs) & Hk). split; [done|]. split; [done|].
      destruct (markets d !! market_id f) as [m|]; [|done].
      exists m. split; [done|]. by injection Hs.
    + intros (Hk & Hu & m & Hm & Hs). split; [|done]. split; [done|].
      by rewrite Hm, <- Hs.
  - intros Hne. subst accuracy.
    rewrite calculate_user_accuracy_value by done. fold fs.
    set (cs := (λ f, py_abs (fl_sub 100 (probability f))) <$> fs).
    exists cs, (foldl fl_add 0%Q cs), (sqlite_avg cs),
      (fl_sub 100 (sqlite_avg cs)).
    split; [apply contributions_spec|]. split; [apply foldl_double_sum|].
    split.
    { unfold sqlite_avg, fl_div. subst cs. rewrite length_fmap.
      apply to_double_nearest_double. }
    split; [apply to_double_nearest_double|]. apply py_round_nearest.
  - intros Hne Hall Hlen z. subst accuracy exact.
    rewrite (calculate_user_accuracy_whole uid d Hne Hall Hlen).
    apply py_round_nearest.
  - intros Hne Hall Hlen. subst accuracy exact.
    rewrite calculate_user_accuracy_value by done. fold fs.
    set (c := λ f, py_abs (fl_sub 100 (probability f))).
    set (e := λ f : forecast, Qabs (100 - probability f)).
    assert (Hc : Forall (λ x, (0 <= x)%Q ∧ (x <= 100)%Q) (c <$> fs)).
    { eapply Forall_fmap_impl; [|exact Hall]. intros f [H0 H1].
      by apply contribution_range. }
    assert (Hce : (Qabs (mean (c <$> fs) - mean (e <$> fs)) <= 1 # 2 ^ 47)%Q).
    { apply mean_close; [done|]. eapply Forall_impl; [exact Hall|].
      intros f [H0 H1]. by apply contribution_error. }
    pose proof (accuracy_value_error (c <$> fs) (e <$> fs)) as He.
    rewrite length_fmap in He.
    specialize (He ltac:(by destruct fs) Hc Hlen Hce).
    pose proof (py_round_half (fl_sub 100 (sqlite_avg (c <$> fs)))) as Hh.
    change (1 # 2 ^ 26)%Q with (1 # 67108864)%Q in *.
    apply Qabs_Qle_condition in He, Hh. apply Qabs_upper; lra.
  - intros mid o1 o2 H1 H2.
    destruct mid as [mid|]; [|done].
    destruct (decide (mid = 0)) as [->|Hmid]; [done|].
    destruct (resolve_market_spec mid o1 d Hmid H1) as (d1 & -> & Hm1 & Hf1 & _).
    destruct (resolve_market_spec mid o2 d Hmid H2) as (d2 & -> & Hm2 & Hf2 & _).
    simpl.
    set (d0 := Db (users d) (alter (set_status "resolved") mid (markets d))
                  (forecasts d)).
    rewrite (calculate_user_accuracy_ext uid d0 d1 (resolved_forecast o1 mid)).
    + rewrite (calculate_user_accuracy_ext uid d0 d2 (resolved_forecast o2 mid));
        [done|done| |].
      * apply map_eq. intros k. by rewrite Hf2, lookup_fmap.
      * intros f. unfold resolved_forecast. by case_decide.
    + done.
    + apply map_eq. intros k. by rewrite Hf1, lookup_fmap.
    + intros f. unfold resolved_forecast. by case_decide.
Qed.

Lemma user_accuracy_placeholder_witness :
  calculate_user_accuracy 1 db_resolved = 80.
Proof.
  destruct (user_accuracy_placeholder 1 db_resolved) as (_ & _ & H & _).
  assert (Hfs : resolved_forecasts_of_user 1 db_resolved =
                [Forecast 1 1 80%Q 10 40]) by (by vm_compute).
  rewrite Hfs in H.
  assert (Hr : (Qabs (80 - inject_Z (calculate_user_accuracy 1 db_resolved))
                <= Qabs (80 - inject_Z 80))%Q).
  { apply (H ltac:(discriminate)); [|by vm_compute].
    repeat constructor; by vm_compute. }
  assert (Hz : (Qabs (80 - inject_Z 80) == 0)%Q) by done.
  rewrite Hz in Hr.
  destruct (Qabs_lower (80 - inject_Z (calculate_user_accuracy 1 db_resolved))).
  assert (He : (inject_Z (calculate_user_accuracy 1 db_resolved) ==
                inject_Z 80)%Q) by (change (inject_Z 80) with 80%Q; lra).
  by apply (proj1 (inject_Z_injective _ _)) in He.
Defined.

(** ** Forecast submission *)

(** C5: an authenticated submission whose probability is a number outside
    [0, 100] is answered 400 with an error message, and the database (so
    the forecasts and the balances) stays as it was. *)
Theorem submit_forecast_out_of_range (uid : Z) (data : forecast_data)
    (d : db) (p : Q) :
  fd_probability data = Some p → ¬ ((0 <= p)%Q ∧ (p <= 100)%Q) →
  ∃ msg, submit_forecast (Some uid) data d = (Response 400 (Error msg), d).
Proof.
  intros Hp Hout. unfold submit_forecast, login_required. rewrite Hp.
  destruct (fd_market_id data) as [mid|]; [|by eexists].
  destruct (mid =? 0); [by eexists|].
  destruct (Qle_bool 0 p) eqn:H0; [|by eexists].
  destruct (Qle_bool p 100) eqn:H1; [|by eexists].
  apply Qle_bool_iff in H0, H1. by destruct Hout.
Qed.

Lemma submit_forecast_out_of_range_witness :
  ∃ msg, submit_forecast (Some 1) (ForecastData (Some 1) (Some 150%Q))
           db_signed_up =
         (Response 400 (Error msg), db_signed_up).
Proof.
  apply (submit_forecast_out_of_range 1 _ db_signed_up 150%Q).
  - reflexivity.
  - intros [_ H]. vm_compute in H. by apply H.
Defined.







(** ** Unknown markets *)




(** ** Resolving twice *)

(** C4, as stated, fails: a second resolution pays the forecaster again, and
    with another outcome it rewrites the reward. *)
Lemma resolve_market_twice_pays_twice :
  let first := (resolve_market (ResolveData (Some 1) (JStr "yes"))
                  db_one_forecast).2 in
  let again := (resolve_market (ResolveData (Some 1) (JStr "yes")) first).2 in
  let other := (resolve_market (ResolveData (Some 1) (JStr "no")) first).2 in
  tokens <$> users db_one_forecast !! 1 = Some 990 ∧
  tokens <$> users first !! 1 = Some 1030 ∧
  tokens <$> users again !! 1 = Some 1070 ∧
  reward <$> forecasts first !! 1 = Some 40 ∧
  reward <$> forecasts other !! 1 = Some 10 ∧
  tokens <$> users other !! 1 = Some 1040.
Proof. repeat split. Qed.

Lemma step_keeps_resolved (d d' : db) (k : Z) (m : market) :
  step d d' → markets d !! k = Some m → status m = "resolved" →
  ∃ m', markets d' !! k = Some m' ∧ status m' = "resolved".
Proof.
  intros Hstep Hm Hs. destruct Hstep as [d|hash data d|session data d|data d].
  - unfold init_db. destruct (decide _) as [Hsz|]; [|by exists m].
    apply map_size_empty_iff in Hsz. by rewrite Hsz, lookup_empty in Hm.
  - destruct (signup_cases hash data d) as [->|(n & e & ->)]; by exists m.
  - destruct (submit_forecast_cases session data d)
      as [(r & -> & _)|(? & ? & ? & ? & ? & _ & _ & _ & _ & _ & _ & _ & _ & _
                        & _ & ->)]; by exists m.
  - destruct (resolve_market_cases data d) as [->|(mid & Hmid & Hnz & Ht)];
      [by exists m|].
    destruct data as [mid' outcome]. simpl in *. subst mid'.
    destruct (resolve_market_spec mid outcome d Hnz Ht) as (d1 & -> & Hms & _).
    simpl. rewrite Hms.
    destruct (decide (mid = k)) as [->|Hne].
    + rewrite lookup_alter_eq, Hm. simpl. eexists. split; [reflexivity|done].
    + rewrite lookup_alter_ne by done. by exists m.
Qed.

(** C4, amended: in every reachable database the reward of a forecast is
    zero as long as its market is not resolved, and a resolved market stays
    resolved under every operation; resolving a market a second time leaves
    the markets as they are, but there is no idempotence guard: it writes
    the reward of every forecast of the market again, computed from the
    outcome of the second call, and credits each forecaster again. *)
Theorem resolve_market_again (d : db) (mid : Z) (outcome1 outcome2 : json) :
  reachable d → mid ≠ 0 →
  truthy outcome1 = true → truthy outcome2 = true →
  let d1 := (resolve_market (ResolveData (Some mid) outcome1) d).2 in
  let d2 := (resolve_market (ResolveData (Some mid) outcome2) d1).2 in
  let paid outcome uid :=
    rewards_of_user outcome uid (forecasts_of_market mid (forecasts d)) in
  (∀ k f, forecasts d !! k = Some f →
     ∃ m, markets d !! market_id f = Some m ∧
          (status m ≠ "resolved" → reward f = 0)) ∧
  (∀ d' k m, step d d' → markets d !! k = Some m → status m = "resolved" →
     ∃ m', markets d' !! k = Some m' ∧ status m' = "resolved") ∧
  markets d2 = markets d1 ∧
  (∀ k f, forecasts d !! k = Some f → market_id f = mid →
     ∃ f1 f2, forecasts d1 !! k = Some f1 ∧ forecasts d2 !! k = Some f2 ∧
       reward f1 = compute_reward outcome1 (probability f) ∧
       reward f2 = compute_reward outcome2 (probability f) ∧
       user_id f2 = user_id f ∧ market_id f2 = mid ∧
       probability f2 = probability f ∧
       tokens_spent f2 = tokens_spent f) ∧
  (∀ uid u, users d !! uid = Some u →
     ∃ u1 u2, users d1 !! uid = Some u1 ∧ users d2 !! uid = Some u2 ∧
       tokens u1 = tokens u + paid outcome1 uid ∧
       tokens u2 = tokens u1 + paid outcome2 uid ∧
       username u2 = username u ∧ email u2 = email u ∧
       password_hash u2 = password_hash u).
Proof.
  intros Hreach Hmid H1 H2 d1 d2 paid. subst d2 d1 paid.
  destruct (resolve_market_spec mid outcome1 d Hmid H1)
    as (e1 & -> & Hm1 & Hf1 & Hu1).
  cbn [snd].
  destruct (resolve_market_spec mid outcome2 e1 Hmid H2)
    as (e2 & -> & Hm2 & Hf2 & Hu2).
  cbn [snd].
  assert (He1 : forecasts e1 = resolved_forecast outcome1 mid <$> forecasts d)
    by (apply map_eq; intros k; by rewrite Hf1, lookup_fmap).
  split; [|split; [|split; [|split]]].
  - intros k f Hk.
    apply (forecast_market d (reachable_consistent d Hreach) k f Hk).
  - intros d' k m. apply step_keeps_resolved.
  - rewrite Hm2, Hm1. rewrite alter_alter_eq. apply alter_ext.
    by intros [].
  - intros k f Hk Hm. rewrite Hf2, Hf1, Hk.
    cbn [fmap option_fmap option_map].
    eexists _, _. split; [reflexivity|]. split; [reflexivity|].
    unfold resolved_forecast. rewrite decide_True by done.
    cbn [market_id set_reward]. rewrite decide_True by done. done.
  - intros uid u Hu. rewrite Hu2, Hu1, Hu.
    cbn [fmap option_fmap option_map].
    eexists _, _. split; [reflexivity|]. split; [reflexivity|].
    rewrite He1.
    rewrite rewards_of_user_fmap by (intros f; apply resolved_forecast_fields).
    done.
Qed.

Lemma resolve_market_again_witness :
  ∃ f2 u2,
    forecasts (resolve_market (ResolveData (Some 1) (JStr "no"))
                 (resolve_market (ResolveData (Some 1) (JStr "yes"))
                    db_one_forecast).2).2 !! 1 = Some f2 ∧
    reward f2 = 10 ∧
    users (resolve_market (ResolveData (Some 1) (JStr "no"))
             (resolve_market (ResolveData (Some 1) (JStr "yes"))
                db_one_forecast).2).2 !! 1 = Some u2 ∧
    tokens u2 = 1040.
Proof.
  destruct (resolve_market_again db_one_forecast 1 (JStr "yes") (JStr "no")
              reachable_db_one_forecast) as (_ & _ & _ & Hf & Hu);
    [lia|reflexivity|reflexivity|].
  destruct (Hf 1 (Forecast 1 1 80%Q 10 0))
    as (f1 & f2 & _ & Hf2 & _ & Hr & _); [reflexivity|reflexivity|].
  destruct (Hu 1 (User "aoife" "aoife@example.org" "pbkdf2" 990))
    as (u1 & u2 & _ & Hu2 & Ht1 & Ht2 & _); [reflexivity|].
  exists f2, u2. split; [exact Hf2|]. split; [rewrite Hr; by vm_compute|].
  split; [exact Hu2|]. rewrite Ht2, Ht1. by vm_compute.
Defined.

(** * Further properties of the handlers *)

(** ** The seed data *)

Lemma max_id_nonneg {A} (t : gmap Z A) : 0 ≤ max_id t.
Proof.
  unfold max_id. induction ((map_to_list t).*1) as [|k ks IH]; cbn [foldr]; lia.
Qed.

(** X1: [init_db] seeds an empty [markets] table with the three sample
    markets at ids 1, 2, 3, leaves a table that has rows as it is, never
    touches users or forecasts, and running it again changes nothing. *)
Theorem init_db_seeds_once (d : db) :
  init_db (init_db d) = init_db d ∧
  users (init_db d) = users d ∧
  forecasts (init_db d) = forecasts d ∧
  (markets d ≠ ∅ → init_db d = d) ∧
  (markets d = ∅ →
   markets (init_db d) = list_to_map (zip [1; 2; 3] sample_markets) ∧
   ∀ k m, markets (init_db d) !! k = Some m → status m = "active").
Proof.
  assert (Hseed : foldl insert_market (∅ : gmap Z market) sample_markets =
                  list_to_map (zip [1; 2; 3] sample_markets))
    by (by vm_compute).
  unfold init_db. destruct (decide (size (markets d) = 0%nat)) as [Hsz|Hsz].
  - apply map_size_empty_iff in Hsz. rewrite Hsz, Hseed. cbn [markets users forecasts].
    rewrite decide_False by (by vm_compute).
    repeat split; try done.
    intros k m Hk. apply elem_of_list_to_map_2 in Hk.
    cbn in Hk. rewrite !elem_of_cons, elem_of_nil in Hk.
    by destruct Hk as [[= -> ->]|[[= -> ->]|[[= -> ->]|[]]]].
  - rewrite decide_False by done.
    split; [done|]. split; [done|]. split; [done|]. split; [done|].
    intros He. by rewrite He, map_size_empty in Hsz.
Qed.

(** ** Accounts *)

Lemma signup_inv hash data d :
  (∃ msg, signup hash data d = (Response 400 (Error msg), d)) ∨
  (∃ name mail password,
     data = SignupData (Some name) (Some mail) (Some password) ∧
     name ≠ "" ∧ mail ≠ "" ∧ password ≠ "" ∧
     (∀ k u, users d !! k = Some u → email u ≠ mail ∧ username u ≠ name) ∧
     signup hash data d =
       (Response 201 (AccountCreated "Account created successfully"
                        (next_id (users d)) (User name mail hash 1000)),
        Db (<[next_id (users d) := User name mail hash 1000]> (users d))
           (markets d) (forecasts d))).
Proof.
  destruct data as [[name|] [mail|] [password|]]; unfold signup; simpl;
    try (left; by eexists).
  destruct (String.eqb name "") eqn:Hn; [left; by eexists|].
  destruct (String.eqb mail "") eqn:Hm; [left; by eexists|].
  destruct (String.eqb password "") eqn:Hp; [left; by eexists|].
  simpl. destruct (decide _) as [Hex|Hex]; [left; by eexists|].
  right. exists name, mail, password.
  apply String.eqb_neq in Hn, Hm, Hp. repeat split; try done.
  - intros He. apply Hex. exists k, u. split; [done|]. by left.
  - intros He. apply Hex. exists k, u. split; [done|]. by right.
Qed.

(** X2: a signup with three non-empty fields whose email and username are
    not in use is answered 201 and inserts one row, at an id that was free,
    holding 1000 tokens; every other user row, the markets and the
    forecasts stay as they were. *)
Theorem signup_creates_account (hash name mail password : string) (d : db) :
  name ≠ "" → mail ≠ "" → password ≠ "" →
  (∀ k u, users d !! k = Some u → email u ≠ mail ∧ username u ≠ name) →
  let result :=
    signup hash (SignupData (Some name) (Some mail) (Some password)) d in
  let id := next_id (users d) in
  result.1 = Response 201 (AccountCreated "Account created successfully" id
                             (User name mail hash 1000)) ∧
  users d !! id = None ∧
  users result.2 !! id = Some (User name mail hash 1000) ∧
  (∀ k, k ≠ id → users result.2 !! k = users d !! k) ∧
  markets result.2 = markets d ∧
  forecasts result.2 = forecasts d.
Proof.
  intros Hn Hm Hp Hfree result id. subst result id. unfold signup. simpl.
  apply String.eqb_neq in Hn, Hm, Hp. rewrite Hn, Hm, Hp. simpl.
  rewrite decide_False.
  2:{ intros (k & u & Hk & He). destruct (Hfree k u Hk). by destruct He. }
  simpl. split; [done|]. split; [apply next_id_fresh|].
  split; [by rewrite lookup_insert_eq|]. split; [|done].
  intros k Hk. by rewrite lookup_insert_ne.
Qed.

Lemma signup_creates_account_witness :
  users (signup "pbkdf2" (SignupData (Some "aoife") (Some "aoife@example.org")
                            (Some "secret")) (init_db empty_db)).2 !! 1 =
  Some (User "aoife" "aoife@example.org" "pbkdf2" 1000).
Proof.
  apply (signup_creates_account "pbkdf2" "aoife" "aoife@example.org" "secret"
           (init_db empty_db)); discriminate.
Defined.

(** X3: once a signup has succeeded, any later signup that reuses its email
    or its username is answered 400 and changes nothing, whatever else it
    sends. *)
Theorem signup_twice_refused (hash1 hash2 : string) (data1 data2 : signup_data)
    (d : db) :
  status_code (signup hash1 data1 d).1 = 201 →
  sd_email data2 = sd_email data1 ∨ sd_username data2 = sd_username data1 →
  let d1 := (signup hash1 data1 d).2 in
  ∃ msg, signup hash2 data2 d1 = (Response 400 (Error msg), d1).
Proof.
  intros H201 Hsame d1. subst d1.
  destruct (signup_inv hash1 data1 d)
    as [(msg & Heq)|(name & mail & pw & -> & _ & _ & _ & _ & Heq)].
  { by rewrite Heq in H201. }
  rewrite Heq. cbn [snd]. simpl in Hsame.
  destruct (signup_inv hash2 data2
              (Db (<[next_id (users d) := User name mail hash1 1000]> (users d))
                  (markets d) (forecasts d)))
    as [?|(name2 & mail2 & pw2 & -> & _ & _ & _ & Hfree & _)]; [done|].
  simpl in Hsame. cbn [users] in Hfree.
  destruct (Hfree (next_id (users d)) (User name mail hash1 1000))
    as [He Hu]; [by rewrite lookup_insert_eq|]. simpl in He, Hu.
  destruct Hsame as [[= ->]|[= ->]]; done.
Qed.

Lemma signup_twice_refused_witness :
  ∃ msg,
    signup "other" (SignupData (Some "brid") (Some "aoife@example.org")
                               (Some "pw")) db_signed_up =
    (Response 400 (Error msg), db_signed_up).
Proof.
  apply (signup_twice_refused "pbkdf2" "other"
           (SignupData (Some "aoife") (Some "aoife@example.org") (Some "secret"))
           (SignupData (Some "brid") (Some "aoife@example.org") (Some "pw"))
           (init_db empty_db)); [reflexivity|by left].
Defined.

(** ** Integrity of reachable databases *)

Lemma unique_users_update (t t' : gmap Z user) (g : Z → user → user) :
  (∀ k, t' !! k = g k <$> t !! k) →
  (∀ k u, email (g k u) = email u ∧ username (g k u) = username u) →
  unique_users t → unique_users t'.
Proof.
  intros Ht Hg Hu k1 k2 u1 u2. rewrite !Ht.
  destruct (t !! k1) as [v1|] eqn:H1; [|done].
  destruct (t !! k2) as [v2|] eqn:H2; [|done].
  intros [= <-] [= <-]. destruct (Hg k1 v1) as [-> ->].
  destruct (Hg k2 v2) as [-> ->]. by apply Hu.
Qed.

Lemma submit_forecast_users session data d k :
  users (submit_forecast session data d).2 !! k =
  (λ u, if decide (status_code (submit_forecast session data d).1 = 201
                   ∧ session = Some k)
        then set_tokens (tokens u - tokens_cost) u else u) <$> users d !! k.
Proof.
  destruct (submit_forecast_cases session data d)
    as [(r & -> & Hr)|(uid & mid & p & m & u & -> & _ & _ & _ & _ & _ & _ & _
                       & _ & _ & ->)]; cbn [fst snd status_code users].
  - destruct (users d !! k) as [u|]; [|done]. simpl.
    rewrite decide_False; [done|].
    intros [H201 _]. rewrite H201 in Hr.
    destruct Hr as [?|[[? _]|[[? _]|[? _]]]]; done.
  - rewrite lookup_alter. destruct (decide (uid = k)) as [->|Hne].
    + destruct (users d !! k) as [u0|]; [|done]. simpl.
      by rewrite decide_True.
    + destruct (users d !! k) as [u0|]; [|done]. simpl.
      rewrite decide_False; [done|]. intros [_ [=]]. done.
Qed.

Lemma resolve_market_users data d k :
  ∃ r, users (resolve_market data d).2 !! k = credit r <$> users d !! k.
Proof.
  destruct (resolve_market_cases data d) as [->|(mid & Hmid & Hnz & Ht)].
  - exists 0. simpl. destruct (users d !! k); [|done]. simpl. by rewrite credit_0.
  - destruct data as [mid' outcome]. simpl in *. subst mid'.
    destruct (resolve_market_spec mid outcome d Hnz Ht) as (d1 & -> & _ & _ & Hus).
    eexists. apply Hus.
Qed.

Lemma unique_users_step d d' :
  step d d' → unique_users (users d) → unique_users (users d').
Proof.
  intros Hstep Hu. destruct Hstep as [d|hash data d|session data d|data d].
  - unfold init_db. by destruct (decide _).
  - destruct (signup_inv hash data d)
      as [(msg & ->)|(name & mail & pw & _ & _ & _ & _ & Hfree & ->)]; [done|].
    cbn [snd users]. intros k1 k2 u1 u2. rewrite !lookup_insert.
    repeat case_decide; subst; try done.
    + intros [= <-] H2 He. destruct (Hfree k2 u2 H2). simpl in He.
      destruct He as [He|He]; symmetry in He; done.
    + intros H1 [= <-] He. destruct (Hfree k1 u1 H1). simpl in He.
      destruct He as [He|He]; symmetry in He; done.
    + apply Hu.
  - eapply (unique_users_update (users d)); [apply submit_forecast_users| |done].
    intros k u. simpl. by destruct (decide _).
  - intros k1 k2 u1 u2.
    destruct (resolve_market_users data d k1) as [r1 ->].
    destruct (resolve_market_users data d k2) as [r2 ->].
    destruct (users d !! k1) as [v1|] eqn:H1; [|done].
    destruct (users d !! k2) as [v2|] eqn:H2; [|done].
    intros [= <-] [= <-]. simpl. by apply Hu.
Qed.

(** X4: in every reachable database the [users] table keeps its [UNIQUE]
    constraints: two rows with the same email or the same username are one
    row. *)
Theorem reachable_unique_users (d : db) :
  reachable d → unique_users (users d).
Proof.
  induction 1 as [d Hu _|d d' _ IH Hstep].
  - intros k1 k2 u1 u2. by rewrite Hu, lookup_empty.
  - by eapply unique_users_step.
Qed.

Lemma reachable_unique_users_witness : unique_users (users db_one_forecast).
Proof. apply (reachable_unique_users _ reachable_db_one_forecast). Defined.

Lemma forecast_ok_step d d' :
  step d d' → consistent d →
  (∀ k f, forecasts d !! k = Some f → forecast_ok d k f) →
  ∀ k f, forecasts d' !! k = Some f → forecast_ok d' k f.
Proof.
  intros Hstep Hc Hok. destruct Hstep as [d|hash data d|session data d|data d].
  - unfold init_db. destruct (decide _) as [Hsz|]; [|done].
    apply map_size_empty_iff in Hsz. cbn [forecasts]. intros k f Hk.
    destruct (Hok k f Hk) as [_ [m Hm] _ _ _ _].
    by rewrite Hsz, lookup_empty in Hm.
  - destruct (signup_inv hash data d)
      as [(msg & ->)|(name & mail & pw & _ & _ & _ & _ & _ & ->)]; [done|].
    cbn [snd forecasts]. intros k f Hk. destruct (Hok k f Hk).
    split; cbn [users markets]; try done.
    rewrite lookup_insert. by case_decide.
  - intros k f Hk.
    assert (Hus : ∀ j, is_Some (users d !! j) →
                       is_Some (users (submit_forecast session data d).2 !! j)).
    { intros j. rewrite submit_forecast_users. by rewrite fmap_is_Some. }
    destruct (submit_forecast_cases session data d)
      as [(r & Heq & _)|(uid & mid & p & m & u & _ & _ & _ & Hz & _ & _ & Hm
                         & _ & Hu & _ & Heq)]; rewrite Heq in Hk, Hus |- *;
      cbn [snd forecasts users markets] in Hk, Hus |- *.
    + by apply Hok.
    + rewrite lookup_insert in Hk. case_decide as Hid.
      * injection Hk as <-. split; simpl; try done.
        -- apply Hus. by rewrite Hu.
        -- subst k. pose proof (max_id_nonneg (forecasts d)).
           unfold next_id. lia.
      * destruct (Hok k f Hk). split; cbn [users markets]; try done.
        by apply Hus.
  - intros k f Hk.
    assert (Hus : ∀ j, is_Some (users d !! j) →
                       is_Some (users (resolve_market data d).2 !! j)).
    { intros j. destruct (resolve_market_users data d j) as [r ->].
      by rewrite fmap_is_Some. }
    destruct (resolve_market_cases data d) as [Heq|(mid & Hmid & Hnz & Ht)].
    { rewrite Heq in Hk |- *. by apply Hok. }
    destruct data as [mid' outcome]. simpl in Hmid. subst mid'.
    destruct (resolve_market_spec mid outcome d Hnz Ht)
      as (d1 & Heq & Hms & Hfs & _).
    rewrite Heq in Hk, Hus |- *. cbn [snd] in Hk, Hus |- *.
    rewrite Hfs in Hk. destruct (forecasts d !! k) as [f0|] eqn:Hk0; [|done].
    injection Hk as <-. destruct (Hok k f0 Hk0) as [? ? ? ? ? ?].
    destruct (forecast_range d Hc k f0 Hk0) as [H0 H1].
    unfold resolved_forecast.
    destruct (decide (market_id f0 = mid)); split; simpl; try done;
      try (by apply Hus);
      try (by apply compute_reward_bounds);
      rewrite Hms, lookup_alter; case_decide; try done;
      rewrite fmap_is_Some; by simplify_eq.
Qed.

(** X5: in every reachable database each forecast row names a user and a
    market that exist, the market id is not 0, the row cost 10 tokens, its
    reward lies between 0 and 50, and its id is at least 1. *)
Theorem reachable_forecast_ok (d : db) (k : Z) (f : forecast) :
  reachable d → forecasts d !! k = Some f → forecast_ok d k f.
Proof.
  intros Hreach. revert k f.
  induction Hreach as [d _ Hf|d d' Hreach IH Hstep].
  - intros k f. by rewrite Hf, lookup_empty.
  - eapply forecast_ok_step; eauto using reachable_consistent.
Qed.

Lemma reachable_forecast_ok_witness :
  forecast_ok db_resolved 1 (Forecast 1 1 80%Q 10 40).
Proof.
  apply (reachable_forecast_ok db_resolved 1 _ reachable_db_resolved).
  reflexivity.
Defined.

(** ** Accepted submissions *)

Lemma submit_forecast_accepted uid mid p m u d :
  mid ≠ 0 → (0 <= p)%Q → (p <= 100)%Q →
  markets d !! mid = Some m → status m = "active" →
  users d !! uid = Some u → tokens_cost ≤ tokens u →
  submit_forecast (Some uid) (ForecastData (Some mid) (Some p)) d =
  (Response 201 (ForecastSubmitted "Forecast submitted successfully"
                   (next_id (forecasts d))),
   Db (alter (λ u, set_tokens (tokens u - tokens_cost) u) uid (users d))
      (markets d)
      (<[next_id (forecasts d) := Forecast uid mid p tokens_cost 0]>
         (forecasts d))).
Proof.
  intros Hz H0 H1 Hm Hs Hu Ht. unfold submit_forecast, login_required.
  cbn [fd_market_id fd_probability].
  apply Z.eqb_neq in Hz. apply Qle_bool_iff in H0, H1. apply Z.ltb_ge in Ht.
  apply String.eqb_eq in Hs.
  rewrite Hz, H0, H1. cbn [andb negb]. rewrite Hm, Hs. cbn [negb].
  by rewrite Hu, Ht.
Qed.

(** X6: a submission that passes every check is answered 201 with the id of
    the new row; the row is inserted at an id that was free, with the
    submitted probability, cost 10 and reward 0; every other forecast and
    every market stays as it was, and the table has one row more. *)
Theorem submit_forecast_inserts_row (uid mid : Z) (p : Q) (m : market)
    (u : user) (d : db) :
  mid ≠ 0 → (0 <= p)%Q → (p <= 100)%Q →
  markets d !! mid = Some m → status m = "active" →
  users d !! uid = Some u → tokens_cost ≤ tokens u →
  let result :=
    submit_forecast (Some uid) (ForecastData (Some mid) (Some p)) d in
  let id := next_id (forecasts d) in
  result.1 = Response 201 (ForecastSubmitted
                             "Forecast submitted successfully" id) ∧
  forecasts d !! id = None ∧
  forecasts result.2 !! id = Some (Forecast uid mid p 10 0) ∧
  (∀ k, k ≠ id → forecasts result.2 !! k = forecasts d !! k) ∧
  size (forecasts result.2) = S (size (forecasts d)) ∧
  markets result.2 = markets d.
Proof.
  intros Hz H0 H1 Hm Hs Hu Ht result id. subst result id.
  rewrite (submit_forecast_accepted uid mid p m u d) by done.
  cbn [fst snd forecasts markets].
  pose proof (next_id_fresh (forecasts d)) as Hfresh.
  split; [done|]. split; [done|]. split; [by rewrite lookup_insert_eq|].
  split; [|split; [by apply map_size_insert_None|done]].
  intros k Hk. by rewrite lookup_insert_ne.
Qed.

Lemma submit_forecast_inserts_row_witness :
  forecasts (submit_forecast (Some 1) (ForecastData (Some 1) (Some 80%Q))
               db_signed_up).2 !! 1 = Some (Forecast 1 1 80%Q 10 0).
Proof.
  apply (submit_forecast_inserts_row 1 1 80%Q
           (Market "Will Ireland qualify for FIFA 2026?"
      "This market resolves YES if Ireland's national football team qualifies for the 2026 FIFA World Cup by the end of qualifying rounds."
      "Sports" "2026-06-30" "active")
           (User "aoife" "aoife@example.org" "pbkdf2" 1000) db_signed_up);
    try reflexivity; discriminate.
Defined.

(** ** The crowd prediction *)

Lemma crowd_prediction_count mid d :
  (calculate_crowd_prediction mid d).2 =
  size (filter (λ row : Z * forecast, market_id row.2 = mid) (forecasts d)).
Proof.
  unfold calculate_crowd_prediction, forecasts_of_market.
  rewrite length_fmap, length_by_id, length_map_to_list.
  by destruct (size _).
Qed.

(** X7: after an accepted submission the forecast count of its market is one
    more and the crowd prediction of every other market is what it was; the
    first forecast on a market makes its crowd prediction the double nearest
    to that forecast's probability, rounded: the probability itself,
    rounded, when it is a double. *)
Theorem submit_forecast_crowd_prediction (uid mid : Z) (p : Q) (m : market)
    (u : user) (d : db) :
  mid ≠ 0 → (0 <= p)%Q → (p <= 100)%Q →
  markets d !! mid = Some m → status m = "active" →
  users d !! uid = Some u → tokens_cost ≤ tokens u →
  let d' :=
    (submit_forecast (Some uid) (ForecastData (Some mid) (Some p)) d).2 in
  (calculate_crowd_prediction mid d').2 =
    S (calculate_crowd_prediction mid d).2 ∧
  (∀ mid', mid' ≠ mid →
     calculate_crowd_prediction mid' d' = calculate_crowd_prediction mid' d) ∧
  ((calculate_crowd_prediction mid d).2 = 0%nat →
   calculate_crowd_prediction mid d' = (py_round (to_double p), 1%nat)) ∧
  (is_double p → (calculate_crowd_prediction mid d).2 = 0%nat →
   calculate_crowd_prediction mid d' = (py_round p, 1%nat)).
Proof.
  intros Hz H0 H1 Hm Hs Hu Ht d'. subst d'.
  rewrite (submit_forecast_accepted uid mid p m u d) by done. cbn [snd].
  pose proof (next_id_fresh (forecasts d)) as Hfresh.
  assert (Hfirst :
    size (filter (λ row : Z * forecast, market_id row.2 = mid) (forecasts d))
      = 0%nat →
    calculate_crowd_prediction mid
      (Db (alter (λ u, set_tokens (tokens u - tokens_cost) u) uid (users d))
          (markets d)
          (<[next_id (forecasts d) := Forecast uid mid p tokens_cost 0]>
             (forecasts d))) = (py_round (to_double p), 1%nat)).
  { intros Hsz. apply map_size_empty_iff in Hsz.
    unfold calculate_crowd_prediction, forecasts_of_market. cbn [forecasts].
    rewrite map_filter_insert_True by done. rewrite Hsz, insert_empty.
    rewrite map_to_list_singleton. simpl. f_equal.
    apply py_round_comp, sqlite_avg_singleton. }
  split; [|split; [|split]].
  - rewrite !crowd_prediction_count. cbn [forecasts].
    rewrite map_filter_insert_True by done.
    apply map_size_insert_None, map_lookup_filter_None. by left.
  - intros mid' Hne. unfold calculate_crowd_prediction, forecasts_of_market.
    cbn [forecasts]. rewrite map_filter_insert_False by (simpl; congruence).
    by rewrite delete_id.
  - rewrite crowd_prediction_count. apply Hfirst.
  - intros Hd. rewrite crowd_prediction_count. intros Hsz.
    rewrite (Hfirst Hsz). f_equal. by apply py_round_comp, to_double_fix.
Qed.

Lemma submit_forecast_crowd_prediction_witness :
  calculate_crowd_prediction 1 db_one_forecast = (80, 1%nat).
Proof.
  destruct (submit_forecast_crowd_prediction 1 1 80%Q
           (Market "Will Ireland qualify for FIFA 2026?"
      "This market resolves YES if Ireland's national football team qualifies for the 2026 FIFA World Cup by the end of qualifying rounds."
      "Sports" "2026-06-30" "active")
           (User "aoife" "aoife@example.org" "pbkdf2" 1000) db_signed_up)
    as (_ & _ & _ & H);
    [discriminate|discriminate|discriminate|reflexivity|reflexivity
    |reflexivity|discriminate|].
  apply H; [apply (is_double_Z 80); lia|reflexivity].
Defined.

(** X8: in every reachable database the crowd prediction of a market with
    no more than 2^46 forecasts lies between 0 and 100. *)
Theorem crowd_prediction_range (d : db) (mid : Z) :
  reachable d →
  Z.of_nat (calculate_crowd_prediction mid d).2 ≤ 2 ^ 46 →
  0 ≤ (calculate_crowd_prediction mid d).1 ≤ 100.
Proof.
  intros Hreach. unfold calculate_crowd_prediction.
  set (ps := (λ row : Z * forecast, probability row.2) <$>
               by_id (forecasts_of_market mid (forecasts d))).
  destruct (0 <? length ps)%nat eqn:Hlen; [|simpl; lia].
  apply Nat.ltb_lt in Hlen. cbn [fst snd]. intros Hn.
  assert (Hall : Forall (λ x, (0 <= x)%Q ∧ (x <= 100)%Q) ps).
  { apply Forall_fmap, Forall_forall. intros [k f] Hin. simpl.
    apply elem_of_by_id, elem_of_forecasts_of_market in Hin as [Hk _].
    by apply (forecast_range d (reachable_consistent d Hreach) k f). }
  destruct (sqlite_avg_range ps) as [H0 H1];
    [by destruct ps; simpl in *; try lia|done|lia|].
  by apply (py_round_between 0 100).
Qed.

Lemma crowd_prediction_range_witness :
  0 ≤ (calculate_crowd_prediction 1 db_one_forecast).1 ≤ 100.
Proof.
  apply (crowd_prediction_range _ 1 reachable_db_one_forecast).
  by vm_compute.
Defined.

Lemma crowd_prediction_fmap (g : forecast → forecast) (d1 d2 : db) mid :
  forecasts d2 = g <$> forecasts d1 →
  (∀ f, user_id (g f) = user_id f ∧ market_id (g f) = market_id f ∧
        probability (g f) = probability f) →
  calculate_crowd_prediction mid d2 = calculate_crowd_prediction mid d1.
Proof.
  intros Hf Hg. unfold calculate_crowd_prediction. rewrite Hf.
  rewrite forecasts_of_market_fmap by (intros f; apply Hg).
  rewrite by_id_fmap, <- list_fmap_compose.
  rewrite (list_fmap_ext _ (λ row : Z * forecast, probability row.2)
             (by_id (forecasts_of_market mid (forecasts d1)))); [done|].
  intros i [k f] _. simpl. apply Hg.
Qed.

(** X9: resolving a market, whatever the request, changes no crowd
    prediction and no forecast count. *)
Theorem resolve_market_keeps_crowd_prediction (data : resolve_data) (d : db)
    (mid : Z) :
  calculate_crowd_prediction mid (resolve_market data d).2 =
  calculate_crowd_prediction mid d.
Proof.
  destruct (resolve_market_forecasts data d) as (g & Hf & Hg).
  by apply (crowd_prediction_fmap g).
Qed.

(** ** The accuracy of a user *)

Lemma Qsum_complement (ps : list Q) :
  Forall (λ p, (p <= 100)%Q) ps →
  (Qsum ((λ p, Qabs (100 - p)) <$> ps) ==
   100 * inject_Z (Z.of_nat (length ps)) - Qsum ps)%Q.
Proof.
  induction 1 as [|p ps Hp _ IH]; unfold Qsum in *.
  - cbn [fmap list_fmap foldr].
    change (inject_Z (Z.of_nat (length (@nil Q)))) with 0%Q. lra.
  - rewrite fmap_cons. cbn [foldr length]. rewrite IH.
    rewrite Nat2Z.inj_succ, <- Z.add_1_r, inject_Z_plus.
    change (inject_Z 1) with 1%Q. rewrite Qabs_pos by lra. lra.
Qed.

Lemma resolved_forecasts_of_user_elem uid d f :
  f ∈ resolved_forecasts_of_user uid d → ∃ k, forecasts d !! k = Some f.
Proof.
  unfold resolved_forecasts_of_user.
  intros [_ Hin]%list_elem_of_filter.
  apply list_elem_of_fmap in Hin as ([k f'] & -> & Hin).
  exists k. by apply elem_of_map_to_list, elem_of_by_id.
Qed.

(** X10: in every reachable database the accuracy of a user is 0 without a
    forecast on a resolved market; for whole percentages, fewer than 2^45 of
    them, it is the mean of the probabilities the user stated on resolved
    markets, rounded; and for no more than 2^46 forecasts it lies between 0
    and 100. *)
Theorem user_accuracy_is_mean_probability (d : db) (uid : Z) :
  reachable d →
  let fs := resolved_forecasts_of_user uid d in
  (fs = [] → calculate_user_accuracy uid d = 0) ∧
  (fs ≠ [] → Forall (λ f, whole (probability f)) fs →
   Z.of_nat (length fs) < 2 ^ 45 →
   calculate_user_accuracy uid d = py_round (mean (probability <$> fs))) ∧
  (Z.of_nat (length fs) ≤ 2 ^ 46 → 0 ≤ calculate_user_accuracy uid d ≤ 100).
Proof.
  intros Hreach fs.
  assert (Hall : Forall (λ f, (0 <= probability f)%Q ∧
                              (probability f <= 100)%Q) fs).
  { apply Forall_forall. intros f Hin.
    apply resolved_forecasts_of_user_elem in Hin as [k Hk].
    by apply (forecast_range d (reachable_consistent d Hreach) k f). }
  split; [|split].
  - intros Hnil. unfold calculate_user_accuracy. fold fs. by rewrite Hnil.
  - intros Hne Hw Hlen.
    rewrite calculate_user_accuracy_whole; [|done| |done].
    2:{ fold fs. apply Forall_forall. intros f Hin.
        rewrite Forall_forall in Hw, Hall. split; [by apply Hw|by apply Hall]. }
    fold fs. apply py_round_comp. unfold mean. rewrite !length_fmap.
    replace ((λ f, Qabs (100 - probability f)) <$> fs)
      with ((λ p, Qabs (100 - p)) <$> (probability <$> fs))
      by (by rewrite <- list_fmap_compose).
    rewrite Qsum_complement.
    2:{ apply Forall_fmap. eapply Forall_impl; [exact Hall|].
        by intros ? [_ ?]. }
    rewrite length_fmap.
    pose proof (length_pos_Q fs Hne). field. lra.
  - intros Hlen. destruct (decide (fs = [])) as [Hnil|Hne].
    + unfold calculate_user_accuracy. fold fs. rewrite Hnil. lia.
    + rewrite calculate_user_accuracy_value by done. fold fs.
      destruct (accuracy_value_range
                  ((λ f, py_abs (fl_sub 100 (probability f))) <$> fs))
        as [H0 H1].
      * by destruct fs.
      * apply Forall_fmap. eapply Forall_impl; [exact Hall|].
        intros f [? ?]. by apply contribution_range.
      * rewrite length_fmap. lia.
      * by apply (py_round_between 0 100).
Qed.

Lemma user_accuracy_is_mean_probability_witness :
  calculate_user_accuracy 1 db_resolved = 80.
Proof.
  destruct (user_accuracy_is_mean_probability db_resolved 1
              reachable_db_resolved) as (_ & H & _).
  rewrite H; [by vm_compute|discriminate| |by vm_compute].
  repeat constructor; by vm_compute.
Defined.

(** ** More on resolution *)

Lemma db_eq (d1 d2 : db) :
  users d1 = users d2 → markets d1 = markets d2 →
  forecasts d1 = forecasts d2 → d1 = d2.
Proof. destruct d1, d2. simpl. by intros -> -> ->. Qed.



Lemma resolved_forecast_comm o1 o2 m1 m2 f :
  m1 ≠ m2 →
  resolved_forecast o2 m2 (resolved_forecast o1 m1 f) =
  resolved_forecast o1 m1 (resolved_forecast o2 m2 f).
Proof.
  intros Hne. unfold resolved_forecast.
  destruct (decide (market_id f = m1)), (decide (market_id f = m2)); simpl;
    repeat case_decide; simpl; congruence.
Qed.

(** X12: resolutions of two different markets commute: either order leaves
    the same database. *)
Theorem resolve_market_commute (d : db) (m1 m2 : Z) (o1 o2 : json) :
  m1 ≠ m2 →
  (resolve_market (ResolveData (Some m2) o2)
     (resolve_market (ResolveData (Some m1) o1) d).2).2 =
  (resolve_market (ResolveData (Some m1) o1)
     (resolve_market (ResolveData (Some m2) o2) d).2).2.
Proof.
  intros Hne.
  assert (Hcase : ∀ m o e,
    (m = 0 ∨ truthy o = false) →
    resolve_market (ResolveData (Some m) o) e =
    (Response 400 (Error "Market ID and outcome required"), e)).
  { intros m o e Hc. unfold resolve_market. simpl.
    destruct Hc as [-> | ->]; [done|]. by rewrite andb_false_r. }
  destruct (decide (m1 = 0 ∨ truthy o1 = false)) as [H1|H1].
  { by rewrite !(Hcase m1 o1) by done. }
  destruct (decide (m2 = 0 ∨ truthy o2 = false)) as [H2|H2].
  { by rewrite !(Hcase m2 o2) by done. }
  assert (m1 ≠ 0 ∧ truthy o1 = true) as [Hz1 Ht1]
    by (split; [tauto|destruct (truthy o1); tauto]).
  assert (m2 ≠ 0 ∧ truthy o2 = true) as [Hz2 Ht2]
    by (split; [tauto|destruct (truthy o2); tauto]).
  destruct (resolve_market_spec m1 o1 d Hz1 Ht1) as (a & -> & Hma & Hfa & Hua).
  destruct (resolve_market_spec m2 o2 d Hz2 Ht2) as (b & -> & Hmb & Hfb & Hub).
  cbn [snd].
  destruct (resolve_market_spec m2 o2 a Hz2 Ht2) as (ab & -> & Hmab & Hfab & Huab).
  destruct (resolve_market_spec m1 o1 b Hz1 Ht1) as (ba & -> & Hmba & Hfba & Huba).
  cbn [snd].
  assert (Ha : forecasts a = resolved_forecast o1 m1 <$> forecasts d)
    by (apply map_eq; intros k; by rewrite Hfa, lookup_fmap).
  assert (Hb : forecasts b = resolved_forecast o2 m2 <$> forecasts d)
    by (apply map_eq; intros k; by rewrite Hfb, lookup_fmap).
  apply db_eq.
  - apply map_eq. intros uid. rewrite Huab, Huba, Hua, Hub, Ha, Hb.
    rewrite !rewards_of_user_fmap by (intros f; apply resolved_forecast_fields).
    destruct (users d !! uid) as [u|]; [|done]. simpl.
    rewrite !credit_credit. f_equal. f_equal. lia.
  - rewrite Hmab, Hmba, Hma, Hmb. by apply alter_alter_ne.
  - apply map_eq. intros k. rewrite Hfab, Hfba, Hfa, Hfb.
    destruct (forecasts d !! k) as [f|]; [|done]. simpl.
    by rewrite resolved_forecast_comm.
Qed.

Lemma resolve_market_commute_witness :
  (resolve_market (ResolveData (Some 2) (JStr "no"))
     (resolve_market (ResolveData (Some 1) (JStr "yes")) db_one_forecast).2).2 =
  (resolve_market (ResolveData (Some 1) (JStr "yes"))
     (resolve_market (ResolveData (Some 2) (JStr "no")) db_one_forecast).2).2.
Proof. apply (resolve_market_commute db_one_forecast 1 2). discriminate. Defined.

(** X13: every resolution of a market pays, whatever was paid before: after
    two resolutions each balance has grown by what the first outcome pays
    plus what the second outcome pays, both computed on the forecasts as
    they were. *)
Theorem resolve_market_pays_each_time (d : db) (mid : Z) (o1 o2 : json)
    (uid : Z) (u : user) :
  mid ≠ 0 → truthy o1 = true → truthy o2 = true →
  users d !! uid = Some u →
  let paid o :=
    rewards_of_user o uid (forecasts_of_market mid (forecasts d)) in
  users (resolve_market (ResolveData (Some mid) o2)
           (resolve_market (ResolveData (Some mid) o1) d).2).2 !! uid =
  Some (set_tokens (tokens u + paid o1 + paid o2) u).
Proof.
  intros Hz H1 H2 Hu paid. subst paid.
  destruct (resolve_market_spec mid o1 d Hz H1) as (a & -> & _ & Hfa & Hua).
  cbn [snd].
  destruct (resolve_market_spec mid o2 a Hz H2) as (b & -> & _ & _ & Hub).
  cbn [snd].
  assert (Ha : forecasts a = resolved_forecast o1 mid <$> forecasts d)
    by (apply map_eq; intros k; by rewrite Hfa, lookup_fmap).
  rewrite Hub, Hua, Hu, Ha.
  rewrite rewards_of_user_fmap by (intros f; apply resolved_forecast_fields).
  unfold credit, set_tokens. simpl. do 2 f_equal; lia.
Qed.

Lemma resolve_market_pays_each_time_witness :
  users (resolve_market (ResolveData (Some 1) (JStr "no"))
           (resolve_market (ResolveData (Some 1) (JStr "yes"))
              db_one_forecast).2).2 !! 1 =
  Some (User "aoife" "aoife@example.org" "pbkdf2" 1040).
Proof.
  rewrite (resolve_market_pays_each_time db_one_forecast 1 (JStr "yes")
             (JStr "no") 1 (User "aoife" "aoife@example.org" "pbkdf2" 990));
    [reflexivity|discriminate|reflexivity|reflexivity|reflexivity].
Defined.



(** ** The reward formula *)

(** X15: for a probability between 0 and 100 the reward under 'yes' grows
    with the probability and the reward under any other outcome shrinks
    with it; for a probability that is a double the two rewards add up to
    50 or to 49. *)
Theorem compute_reward_shape (outcome : json) (p q : Q) :
  (0 <= p)%Q → (p <= q)%Q → (q <= 100)%Q → is_yes outcome = false →
  compute_reward (JStr "yes") p ≤ compute_reward (JStr "yes") q ∧
  compute_reward outcome q ≤ compute_reward outcome p ∧
  (is_double p →
   49 ≤ compute_reward (JStr "yes") p + compute_reward outcome p ≤ 50).
Proof.
  intros H0 Hpq H1 Hno. unfold compute_reward. rewrite Hno.
  change (is_yes (JStr "yes")) with true. cbv iota.
  assert (Hnn : ∀ a, (0 <= a)%Q → (0 <= fl_mul a (1 # 2))%Q).
  { intros a Ha. apply to_double_ge; [apply is_double_0|lra]. }
  destruct (fl_sub_100_range p) as [Hp0 Hp1]; [lra|lra|].
  destruct (fl_sub_100_range q) as [Hq0 Hq1]; [lra|lra|].
  rewrite !py_int_floor by (apply Hnn; lra).
  split; [|split].
  - apply Qfloor_resp_le, to_double_mono. lra.
  - apply Qfloor_resp_le, to_double_mono.
    assert (fl_sub 100 q <= fl_sub 100 p)%Q by (apply to_double_mono; lra).
    lra.
  - intros Hd.
    destruct (fl_half_floor p Hd H0) as [_ ->].
    destruct (fl_half_floor (fl_sub 100 p)) as [_ ->];
      [apply to_double_is_double|done|].
    set (j := Qfloor (p * (1 # 2))).
    pose proof (Qfloor_le (p * (1 # 2))) as Hlo.
    pose proof (Qlt_floor (p * (1 # 2))) as Hhi. fold j in Hlo, Hhi.
    rewrite inject_Z_plus in Hhi. change (inject_Z 1) with 1%Q in Hhi.
    assert (Hj : 0 ≤ j ≤ 50) by (subst j; apply Qfloor_half_bounds; lra).
    assert (Hd1 : is_double (inject_Z (98 - 2 * j)))
      by (apply is_double_Z; lia).
    assert (Hd2 : is_double (inject_Z (100 - 2 * j)))
      by (apply is_double_Z; lia).
    assert (E1 : (inject_Z (98 - 2 * j) == 98 - 2 * inject_Z j)%Q).
    { unfold Z.sub. by rewrite inject_Z_plus, inject_Z_opp, inject_Z_mult. }
    assert (E2 : (inject_Z (100 - 2 * j) == 100 - 2 * inject_Z j)%Q).
    { unfold Z.sub. by rewrite inject_Z_plus, inject_Z_opp, inject_Z_mult. }
    destruct (to_double_range _ _ (100 - p) Hd1 Hd2) as [H2 H3]; [lra|lra|].
    fold (fl_sub 100 p) in H2, H3.
    assert (Ha : (inject_Z (49 - j) <= fl_sub 100 p * (1 # 2))%Q).
    { unfold Z.sub. rewrite inject_Z_plus, inject_Z_opp.
      change (inject_Z 49) with 49%Q. lra. }
    assert (Hb : (fl_sub 100 p * (1 # 2) <= inject_Z (50 - j))%Q).
    { unfold Z.sub. rewrite inject_Z_plus, inject_Z_opp.
      change (inject_Z 50) with 50%Q. lra. }
    apply Qfloor_resp_le in Ha, Hb. rewrite Qfloor_Z in Ha, Hb. lia.
Qed.

Lemma compute_reward_shape_witness :
  49 ≤ compute_reward (JStr "yes") 75 + compute_reward (JStr "no") 75 ≤ 50.
Proof.
  apply (compute_reward_shape (JStr "no") 75 80);
    [discriminate|discriminate|discriminate|reflexivity|].
  apply (is_double_Z 75). lia.
Defined.

(** ** What a resolution pays *)

Lemma rewards_of_user_upper outcome mid uid (t : gmap Z forecast) :
  (∀ k f, t !! k = Some f → (0 <= probability f)%Q ∧ (probability f <= 100)%Q) →
  rewards_of_user outcome uid (forecasts_of_market mid t) ≤
  50 * Z.of_nat (length (filter (λ row : Z * forecast, user_id row.2 = uid)
                           (forecasts_of_market mid t))).
Proof.
  intros Hr. unfold rewards_of_user.
  assert (Hall : ∀ row, row ∈ filter (λ row : Z * forecast, user_id row.2 = uid)
                          (forecasts_of_market mid t) →
                        compute_reward outcome (probability row.2) ≤ 50).
  { intros [k f] [_ Hin]%list_elem_of_filter.
    apply elem_of_forecasts_of_market in Hin as [Hk _].
    destruct (Hr k f Hk). simpl. by apply compute_reward_bounds. }
  induction (filter _ _) as [|row rows IH]; [done|].
  rewrite fmap_cons. cbn [foldr length].
  assert (compute_reward outcome (probability row.2) ≤ 50) by (apply Hall; left).
  assert (foldr Z.add 0 ((λ row, compute_reward outcome (probability row.2)) <$> rows)
          ≤ 50 * Z.of_nat (length rows)).
  { apply IH. intros. apply Hall. by right. }
  lia.
Qed.

(** X16: in every reachable database a resolution never lowers a balance,
    and it raises it by at most 50 tokens for each forecast the user has
    against the resolved market. *)
Theorem resolve_market_payment_bounds (d : db) (data : resolve_data)
    (uid : Z) (u : user) :
  reachable d → users d !! uid = Some u →
  ∃ u', users (resolve_market data d).2 !! uid = Some u' ∧
        username u' = username u ∧ email u' = email u ∧
        tokens u ≤ tokens u' ∧
        ∀ mid, rd_market_id data = Some mid →
          tokens u' ≤ tokens u +
            50 * Z.of_nat (length (filter
                             (λ row : Z * forecast, user_id row.2 = uid)
                             (forecasts_of_market mid (forecasts d)))).
Proof.
  intros Hreach Hu.
  pose proof (forecast_range d (reachable_consistent d Hreach)) as Hr.
  destruct (resolve_market_cases data d) as [->|(mid & Hmid & Hz & Ht)].
  - exists u. cbn [snd]. repeat split; try done. intros. lia.
  - destruct data as [mid' outcome]. simpl in Hmid, Ht. subst mid'.
    destruct (resolve_market_spec mid outcome d Hz Ht) as (a & -> & _ & _ & Hua).
    cbn [snd]. rewrite Hua, Hu. simpl. eexists. split; [done|]. simpl.
    pose proof (rewards_of_user_nonneg outcome mid uid (forecasts d) Hr).
    pose proof (rewards_of_user_upper outcome mid uid (forecasts d) Hr).
    repeat split; try done; try lia.
    intros mid' [= <-]. lia.
Qed.

Lemma resolve_market_payment_bounds_witness :
  ∃ u', users db_resolved !! 1 = Some u' ∧ 990 ≤ tokens u'.
Proof.
  destruct (resolve_market_payment_bounds db_one_forecast
              (ResolveData (Some 1) (JStr "yes")) 1
              (User "aoife" "aoife@example.org" "pbkdf2" 990)
              reachable_db_one_forecast) as (u' & Hu & _ & _ & Hle & _);
    [reflexivity|].
  exists u'. split; [exact Hu|exact Hle].
Defined.

(** ** Logging in *)

Lemma select_user_by_email_Some mail (t : gmap Z user) k u :
  select_user_by_email mail t = Some (k, u) →
  t !! k = Some u ∧ email u = mail.
Proof.
  unfold select_user_by_email. intros H.
  apply fmap_Some in H as ([i [k' u']] & Hfind & [= <- <-]).
  apply list_find_Some in Hfind as (Hl & He & _). split; [|done].
  apply elem_of_map_to_list, list_elem_of_lookup. by exists i.
Qed.

Lemma select_user_by_email_None mail (t : gmap Z user) :
  select_user_by_email mail t = None →
  ∀ k u, t !! k = Some u → email u ≠ mail.
Proof.
  unfold select_user_by_email. intros H k u Hk He.
  apply fmap_None in H.
  apply list_find_None in H. rewrite Forall_forall in H.
  apply (H (k, u)); [by apply elem_of_map_to_list|done].
Qed.

(** X17: a login is answered 200 only for the email of a row of [users]
    whose stored hash matches the password; the answer then shows that row
    and the session holds its id.  Every other login leaves the session as
    it was, answered 401 or, for a missing or empty field, 400. *)
Theorem login_sound (check : string → string → bool) (data : login_data)
    (d : db) (session : option Z) :
  let result := login check data d session in
  match result.1 with
  | Json code info =>
      code = 200 ∧ result.2 = Some (ui_id info) ∧
      ∃ u password,
        users d !! ui_id info = Some u ∧
        info = UserInfo (ui_id info) (username u) (email u) (tokens u) ∧
        ld_email data = Some (email u) ∧
        ld_password data = Some password ∧
        check (password_hash u) password = true
  | Refused code _ => (code = 400 ∨ code = 401) ∧ result.2 = session
  | Crashed => False
  end.
Proof.
  unfold login. destruct (ld_email data) as [mail|]; [|by split; [left|]].
  destruct (ld_password data) as [password|]; [|by split; [left|]].
  destruct (_ || _); [by split; [left|]|].
  destruct (select_user_by_email mail (users d)) as [[k u]|] eqn:Hsel;
    [|by split; [right|]].
  apply select_user_by_email_Some in Hsel as [Hk He].
  destruct (check (password_hash u) password) eqn:Hc; [|by split; [right|]].
  cbn. split; [done|]. split; [done|]. exists u, password. by rewrite He.
Qed.

(** X18: after a successful signup, logging in with the same email and a
    password that the stored hash accepts is answered 200 and opens the
    session of the new account; with a password the hash rejects it is
    answered 401 and the session stays as it was. *)
Theorem signup_then_login (check : string → string → bool)
    (hash : string) (data : signup_data) (d : db) (mail password : string)
    (session : option Z) :
  status_code (signup hash data d).1 = 201 →
  sd_email data = Some mail → password ≠ "" →
  let d1 := (signup hash data d).2 in
  let id := next_id (users d) in
  signup_session hash data d session = Some id ∧
  (check hash password = true →
   ∃ info, login check (LoginData (Some mail) (Some password)) d1 session =
             (Json 200 info, Some id) ∧
           ui_id info = id ∧ ui_email info = mail ∧ ui_tokens info = 1000) ∧
  (check hash password = false →
   login check (LoginData (Some mail) (Some password)) d1 session =
   (Refused 401 "Invalid credentials", session)).
Proof.
  intros H201 Hmail Hpw d1 id. subst d1 id. unfold signup_session.
  destruct (signup_inv hash data d)
    as [(msg & Heq)|(name & mail' & pw & -> & _ & Hm & _ & Hfree & Heq)].
  { by rewrite Heq in H201. }
  simpl in Hmail. injection Hmail as ->.
  rewrite Heq. cbn [fst snd payload]. split; [done|].
  set (u := User name mail hash 1000).
  set (t := <[next_id (users d) := u]> (users d)).
  assert (Hsel : select_user_by_email mail t = Some (next_id (users d), u)).
  { destruct (select_user_by_email mail t) as [[k v]|] eqn:Hsel.
    - apply select_user_by_email_Some in Hsel as [Hk He]. subst t.
      rewrite lookup_insert in Hk. case_decide as Hid.
      + by injection Hk as <-; subst k.
      + by destruct (Hfree k v Hk).
    - exfalso.
      apply (select_user_by_email_None mail t Hsel (next_id (users d)) u);
        [by subst t; rewrite lookup_insert_eq|done]. }
  unfold login. cbn [ld_email ld_password users].
  apply String.eqb_neq in Hm, Hpw. rewrite Hm, Hpw. cbn [orb].
  fold t. rewrite Hsel. cbn [password_hash u].
  split; intros ->; [|done]. eexists. split; [reflexivity|done].
Qed.

Lemma signup_then_login_witness :
  signup_session "pbkdf2"
    (SignupData (Some "aoife") (Some "aoife@example.org") (Some "secret"))
    (init_db empty_db) None = Some 1.
Proof.
  apply (signup_then_login (λ _ _, true) "pbkdf2"
           (SignupData (Some "aoife") (Some "aoife@example.org") (Some "secret"))
           (init_db empty_db) "aoife@example.org" "secret" None);
    [reflexivity|reflexivity|discriminate].
Defined.

(** ** The profile and the rank *)

Lemma length_filter_impl {A} (P Q : A → Prop) `{∀ x, Decision (P x)}
    `{∀ x, Decision (Q x)} (l : list A) :
  (∀ x, P x → Q x) → (length (filter P l) ≤ length (filter Q l))%nat.
Proof.
  intros HPQ. induction l as [|x l IH]; [done|].
  rewrite !filter_cons. destruct (decide (P x)) as [HP|HP].
  - rewrite decide_True by auto. simpl. lia.
  - destruct (decide (Q x)); simpl; lia.
Qed.

Lemma rank_of_tokens_one t d :
  rank_of_tokens t d = 1%nat ↔ ∀ k u, users d !! k = Some u → tokens u ≤ t.
Proof.
  unfold rank_of_tokens. split.
  - intros Hr k u Hk. injection Hr as Hr. apply length_zero_iff_nil in Hr.
    destruct (decide (t < tokens u)) as [Hlt|]; [|lia].
    assert ((k, u) ∈ filter (λ row : Z * user, t < tokens row.2)
                       (map_to_list (users d))) as Hin.
    { apply list_elem_of_filter. split; [done|]. by apply elem_of_map_to_list. }
    rewrite Hr in Hin. by apply elem_of_nil in Hin.
  - intros Hall. rewrite filter_none; [done|]. intros [k u] Hin.
    apply elem_of_map_to_list in Hin. specialize (Hall k u Hin). simpl. lia.
Qed.

(** X19: the rank that the profile shows is 1 exactly when no user holds
    more tokens; it is at most the number of users; of two users the one
    with at least as many tokens has the rank that is at most the other's,
    and the profile shows the row's own tokens and forecast count. *)
Theorem get_user_rank (d : db) (uid1 uid2 : Z) (p1 p2 : user_profile) :
  get_user (Some uid1) d = Json 200 p1 →
  get_user (Some uid2) d = Json 200 p2 →
  (1 ≤ up_rank p1 ≤ size (users d))%nat ∧
  (up_rank p1 = 1%nat ↔
   ∀ k u, users d !! k = Some u → tokens u ≤ ui_tokens (up_info p1)) ∧
  (ui_tokens (up_info p1) ≤ ui_tokens (up_info p2) →
   (up_rank p2 ≤ up_rank p1)%nat) ∧
  (tokens <$> users d !! uid1 = Some (ui_tokens (up_info p1))).
Proof.
  unfold get_user.
  destruct (users d !! uid1) as [u1|] eqn:H1; [|done].
  destruct (users d !! uid2) as [u2|] eqn:H2; [|done].
  intros [= <-] [= <-]. cbn [up_rank up_info ui_tokens].
  split; [|split; [|split; [|done]]].
  - unfold rank_of_tokens. split; [lia|].
    rewrite <- length_map_to_list.
    apply (length_filter_lt _ _ (uid1, u1)); [|simpl; lia].
    by apply elem_of_map_to_list.
  - apply rank_of_tokens_one.
  - intros Hle. unfold rank_of_tokens. apply le_n_S.
    apply length_filter_impl. intros [k u]. simpl. lia.
Qed.

Lemma get_user_rank_witness :
  tokens <$> users db_one_forecast !! 1 = Some 990.
Proof.
  destruct (get_user_rank db_one_forecast 1 1
              (UserProfile (UserInfo 1 "aoife" "aoife@example.org" 990)
                 1 0 1)
              (UserProfile (UserInfo 1 "aoife" "aoife@example.org" 990)
                 1 0 1)) as (_ & _ & _ & H);
    [reflexivity|reflexivity|exact H].
Defined.

(** X20: the profile is refused with 401 without a session; with the
    session of a user, an accepted submission lowers the tokens it shows by
    10 and raises the forecast count it shows by one. *)
Theorem get_user_after_submission (uid mid : Z) (p : Q) (m : market)
    (u : user) (d : db) :
  mid ≠ 0 → (0 <= p)%Q → (p <= 100)%Q →
  markets d !! mid = Some m → status m = "active" →
  users d !! uid = Some u → tokens_cost ≤ tokens u →
  let d' :=
    (submit_forecast (Some uid) (ForecastData (Some mid) (Some p)) d).2 in
  get_user None d' = Refused 401 "Authentication required" ∧
  ∃ before after,
    get_user (Some uid) d = Json 200 before ∧
    get_user (Some uid) d' = Json 200 after ∧
    ui_tokens (up_info after) = ui_tokens (up_info before) - 10 ∧
    up_forecasts_count after = S (up_forecasts_count before).
Proof.
  intros Hz H0 H1 Hm Hs Hu Ht d'. subst d'.
  rewrite (submit_forecast_accepted uid mid p m u d) by done. cbn [snd].
  split; [done|]. unfold get_user. cbn [users].
  rewrite Hu, lookup_alter_eq, Hu. cbn [fmap option_fmap option_map].
  eexists _, _. split; [reflexivity|]. split; [reflexivity|].
  cbn [up_info ui_tokens up_forecasts_count tokens set_tokens].
  split; [done|]. unfold count_forecasts_of_user. cbn [forecasts].
  rewrite (map_to_list_insert (forecasts d)) by apply next_id_fresh.
  by rewrite filter_cons_True.
Qed.

Lemma get_user_after_submission_witness :
  get_user None db_one_forecast = Refused 401 "Authentication required".
Proof.
  apply (get_user_after_submission 1 1 80%Q
           (Market "Will Ireland qualify for FIFA 2026?"
      "This market resolves YES if Ireland's national football team qualifies for the 2026 FIFA World Cup by the end of qualifying rounds."
      "Sports" "2026-06-30" "active")
           (User "aoife" "aoife@example.org" "pbkdf2" 1000) db_signed_up);
    [discriminate|discriminate|discriminate|reflexivity|reflexivity
    |reflexivity|discriminate].
Defined.

(** ** The leaderboard *)

#[local] Instance more_tokens_total : Total more_tokens.
Proof. intros a b. unfold more_tokens. lia. Qed.

#[local] Instance more_tokens_trans : Transitive more_tokens.
Proof. intros a b c. unfold more_tokens. lia. Qed.

Lemma ranked_users_sorted (d : db) :
  StronglySorted more_tokens (merge_sort more_tokens (map_to_list (users d))).
Proof. apply StronglySorted_merge_sort; apply _. Qed.

Lemma ranked_users_elem (d : db) k u :
  (k, u) ∈ merge_sort more_tokens (map_to_list (users d)) ↔
  users d !! k = Some u.
Proof. by rewrite merge_sort_Permutation, elem_of_map_to_list. Qed.

Lemma ranked_users_NoDup (d : db) :
  NoDup (merge_sort more_tokens (map_to_list (users d))).*1.
Proof.
  rewrite merge_sort_Permutation. apply NoDup_fst_map_to_list.
Qed.

(** X21: the leaderboard lists at most 50 users, all of them when there are
    no more than 50, no user twice, in order of falling tokens; each entry
    shows the tokens of its row, and a user who is left out holds no more
    tokens than any user who is listed. *)
Theorem get_leaderboard_top (d : db) :
  let board := get_leaderboard d in
  length board = (50 `min` size (users d))%nat ∧
  NoDup (le_id <$> board) ∧
  StronglySorted (λ a b, le_tokens b ≤ le_tokens a) board ∧
  (∀ e, e ∈ board →
     ∃ u, users d !! le_id e = Some u ∧
          e = LeaderboardEntry (le_id e) (username u) (tokens u)
                (count_forecasts_of_user (le_id e) d)
                (calculate_user_accuracy (le_id e) d)) ∧
  (∀ k u e, users d !! k = Some u → k ∉ le_id <$> board → e ∈ board →
     tokens u ≤ le_tokens e).
Proof.
  intros board. subst board. unfold get_leaderboard.
  set (ranked := merge_sort more_tokens (map_to_list (users d))).
  set (entry := λ row : Z * user,
         LeaderboardEntry row.1 (username row.2) (tokens row.2)
           (count_forecasts_of_user row.1 d)
           (calculate_user_accuracy row.1 d)).
  pose proof (ranked_users_sorted d) as Hsorted. fold ranked in Hsorted.
  pose proof (ranked_users_NoDup d) as Hnd. fold ranked in Hnd.
  rewrite <- (take_drop 50 ranked) in Hsorted, Hnd.
  apply StronglySorted_app in Hsorted as (Hcross & Hs1 & _).
  rewrite fmap_app in Hnd. apply NoDup_app in Hnd as (Hnd1 & _ & _).
  split; [|split; [|split; [|split]]].
  - rewrite length_fmap, length_take. subst ranked.
    by rewrite merge_sort_Permutation, length_map_to_list.
  - rewrite <- list_fmap_compose. exact Hnd1.
  - clear Hcross Hnd1. induction Hs1 as [|row rows _ IH Hall]; [constructor|].
    rewrite fmap_cons. constructor; [done|].
    apply Forall_fmap. eapply Forall_impl; [exact Hall|]. by intros [k u].
  - intros e Hin. apply list_elem_of_fmap in Hin as ([k u] & -> & Hin).
    apply elem_of_take in Hin as (i & Hin & _).
    apply list_elem_of_lookup_2 in Hin. apply ranked_users_elem in Hin.
    by exists u.
  - intros k u e Hk Hout Hin.
    apply list_elem_of_fmap in Hin as ([k' u'] & -> & Hin). simpl.
    assert ((k, u) ∈ ranked) as Hr by (by apply ranked_users_elem).
    rewrite <- (take_drop 50 ranked) in Hr.
    apply elem_of_app in Hr as [Hr|Hr].
    + exfalso. apply Hout. rewrite <- list_fmap_compose.
      apply list_elem_of_fmap. by exists (k, u).
    + apply (Hcross (k', u') (k, u) Hin Hr).
Qed.

(** X22: the user at the head of the leaderboard is shown rank 1 in the
    profile. *)
Theorem get_leaderboard_head_rank (d : db) (e : leaderboard_entry)
    (rest : list leaderboard_entry) :
  get_leaderboard d = e :: rest →
  ∃ p, get_user (Some (le_id e)) d = Json 200 p ∧
       up_rank p = 1%nat ∧ ui_tokens (up_info p) = le_tokens e.
Proof.
  unfold get_leaderboard.
  pose proof (ranked_users_sorted d) as Hsorted.
  pose proof (ranked_users_elem d) as Helem.
  destruct (merge_sort more_tokens (map_to_list (users d)))
    as [|[k u] rows]; [done|].
  cbn [take]. rewrite fmap_cons. intros [= <- _]. cbn [le_id le_tokens fst snd].
  assert (Hk : users d !! k = Some u) by (apply Helem; left).
  unfold get_user. rewrite Hk. eexists. split; [reflexivity|].
  cbn [up_rank up_info ui_tokens]. split; [|done].
  apply rank_of_tokens_one. intros k' u' Hk'.
  apply Helem in Hk'. apply StronglySorted_inv in Hsorted as [_ Hall].
  apply elem_of_cons in Hk' as [[= -> ->]|Hin]; [done|].
  rewrite Forall_forall in Hall. apply (Hall (k', u') Hin).
Qed.

Lemma get_leaderboard_head_rank_witness :
  ∃ p, get_user (Some 1) db_one_forecast = Json 200 p ∧ up_rank p = 1%nat.
Proof.
  destruct (get_leaderboard_head_rank db_one_forecast
              (LeaderboardEntry 1 "aoife" 990 1 0) [])
    as (p & Hp & Hr & _); [reflexivity|].
  exists p. split; [exact Hp|exact Hr].
Defined.

(** ** The listings *)

(** X23: the market listing shows exactly the markets whose status is
    'active', each with its crowd prediction and forecast count; resolving
    a market removes that market from the listing and leaves every other
    entry as it was. *)
Theorem get_markets_active (d : db) :
  (∀ id e, get_markets d !! id = Some e ↔
     ∃ m, markets d !! id = Some m ∧ status m = "active" ∧
          e = MarketEntry m (calculate_crowd_prediction id d).1
                (calculate_crowd_prediction id d).2) ∧
  (∀ mid outcome, mid ≠ 0 → truthy outcome = true →
     get_markets (resolve_market (ResolveData (Some mid) outcome) d).2 =
     delete mid (get_markets d)).
Proof.
  assert (Hlook : ∀ e id x,
    get_markets e !! id = Some x ↔
    ∃ m, markets e !! id = Some m ∧ status m = "active" ∧
         x = MarketEntry m (calculate_crowd_prediction id e).1
               (calculate_crowd_prediction id e).2).
  { intros e id x. unfold get_markets. rewrite map_lookup_imap.
    destruct (markets e !! id) as [m|]; simpl;
      [|split; [done|by intros (? & [=] & _)]].
    destruct (calculate_crowd_prediction id e) as [cp n]. simpl.
    case_decide as Hs; split.
    - intros [= <-]. by exists m.
    - by intros (? & [= <-] & _ & ->).
    - done.
    - intros (? & [= <-] & ? & _). done. }
  split; [apply Hlook|].
  intros mid outcome Hz Ht.
  destruct (resolve_market_spec mid outcome d Hz Ht) as (a & -> & Hma & Hfa & _).
  cbn [snd].
  assert (Hcp : ∀ id, calculate_crowd_prediction id a =
                      calculate_crowd_prediction id d).
  { intros id. apply (crowd_prediction_fmap (resolved_forecast outcome mid)).
    - apply map_eq. intros k. by rewrite Hfa, lookup_fmap.
    - apply resolved_forecast_fields. }
  apply map_eq. intros id. apply option_eq. intros x.
  rewrite Hlook, lookup_delete_Some, Hlook, Hma. setoid_rewrite Hcp.
  destruct (decide (mid = id)) as [->|Hne].
  - rewrite lookup_alter_eq. split; [|by intros [? _]].
    intros (m & Hm & Hs & _). destruct (markets d !! id); [|done].
    injection Hm as <-. done.
  - rewrite lookup_alter_ne by done. split; [by intros ?|by intros [_ ?]].
Qed.

(** X24: without a session the forecast listing is refused with 401; with
    the session of a user it never shows a forecast of another user, and in
    every reachable database it shows every forecast of that user, with the
    question and the status of the forecast's market. *)
Theorem get_user_forecasts_own (d : db) (uid : Z) :
  reachable d →
  get_user_forecasts None d = Refused 401 "Authentication required" ∧
  ∃ listing,
    get_user_forecasts (Some uid) d = Json 200 listing ∧
    (∀ k e, listing !! k = Some e →
       forecasts d !! k = Some (fe_forecast e) ∧
       user_id (fe_forecast e) = uid) ∧
    (∀ k f, forecasts d !! k = Some f → user_id f = uid →
       ∃ m, markets d !! market_id f = Some m ∧
            listing !! k =
            Some (ForecastEntry f (question m) (status m) (category m)
                    (calculate_crowd_prediction (market_id f) d).1)).
Proof.
  intros Hreach. split; [done|]. eexists. split; [reflexivity|]. split.
  - intros k e. rewrite map_lookup_imap.
    destruct (forecasts d !! k) as [f|]; simpl; [|done].
    case_decide; [|done].
    destruct (markets d !! market_id f); simpl; [|done].
    by intros [= <-].
  - intros k f Hk Hu.
    destruct (forecast_market d (reachable_consistent d Hreach) k f Hk)
      as (m & Hm & _).
    exists m. split; [done|]. rewrite map_lookup_imap, Hk. simpl.
    by rewrite decide_True, Hm.
Qed.

Lemma get_user_forecasts_own_witness :
  get_user_forecasts None db_resolved =
  Refused 401 "Authentication required".
Proof. apply (get_user_forecasts_own db_resolved 1 reachable_db_resolved). Defined.

(** ** The [REAL] column *)

(** X25: a database whose stored probabilities are doubles keeps holding
    doubles under every operation, as long as the probabilities that are
    submitted are doubles; the whole percentages are doubles. *)
Theorem real_probabilities_kept (d : db) :
  real_probabilities d →
  real_probabilities (init_db d) ∧
  (∀ hash data, real_probabilities (signup hash data d).2) ∧
  (∀ session data,
     (∀ p, fd_probability data = Some p → is_double p) →
     real_probabilities (submit_forecast session data d).2) ∧
  (∀ data, real_probabilities (resolve_market data d).2) ∧
  (∀ z : Z, 0 ≤ z ≤ 100 → is_double (inject_Z z)).
Proof.
  intros Hd. split; [|split; [|split; [|split]]].
  - unfold init_db. by destruct (decide _).
  - intros hash data.
    by destruct (signup_cases hash data d) as [->|(n & e & ->)].
  - intros session data Hp.
    destruct (submit_forecast_cases session data d)
      as [(r & -> & _)|(uid & mid & p & m & u & _ & _ & Hpd & _ & _ & _ & _
                        & _ & _ & _ & ->)]; [done|].
    intros k f. cbn [snd forecasts]. rewrite lookup_insert.
    case_decide; [|by apply Hd]. intros [= <-]. by apply Hp.
  - intros data k f.
    destruct (resolve_market_forecasts data d) as (g & -> & Hg).
    rewrite lookup_fmap. destruct (forecasts d !! k) as [f0|] eqn:Hk; [|done].
    intros [= <-]. destruct (Hg f0) as (_ & _ & ->). by apply (Hd k).
  - intros z Hz. apply is_double_Z. lia.
Qed.

Lemma real_probabilities_kept_witness : real_probabilities db_one_forecast.
Proof.
  destruct (real_probabilities_kept db_signed_up) as (_ & _ & H & _).
  - intros k f Hk.
    change (forecasts db_signed_up) with (∅ : gmap Z forecast) in Hk.
    by rewrite lookup_empty in Hk.
  - apply H. intros p [= <-]. apply (is_double_Z 80). lia.
Defined.
